(** * Email validation and comparison pipeline: a shallow embedding

    The development follows the Go packages of the repository:
    - [utils]    : [Cache] (expiring key-value store), [NormalizeEmail],
                   [ValidateEmailDetailed], [ValidateEmailsBatch];
    - [services] : [extractEmails], [validateEmailList],
                   [compareEmailEntries] and the two report writers.

    Go strings are byte sequences and are embedded as [string] (a list of
    8-bit [ascii]).  The functions of Go's [strings] and [path/filepath]
    packages that the program calls are embedded in [GoStrings] with their
    behaviour on ASCII text; a byte above 0x7f is neither white space nor a
    letter there.  Logging calls ([GetLogger], [LogExecutionTime]) do not
    influence any returned value and are left out. *)

From Stdlib Require Import ZArith QArith Ascii String.
From stdpp Require Import gmap strings list fin_maps pretty.

Local Open Scope Z_scope.

(* ===================================================================== *)
(** ** Go's [strings] and [path/filepath] functions used by the program  *)
(* ===================================================================== *)

Module GoStrings.

(** [unicode.IsSpace] on ASCII: tab, LF, VT, FF, CR and space. *)
Definition isSpace (c : ascii) : bool := Ascii.is_space c.

Fixpoint TrimLeft (s : string) : string :=
  match s with
  | String c s' => if isSpace c then TrimLeft s' else s
  | EmptyString => EmptyString
  end.

Fixpoint TrimRight (s : string) : string :=
  match s with
  | EmptyString => EmptyString
  | String c s' =>
      match TrimRight s' with
      | EmptyString => if isSpace c then EmptyString else String c EmptyString
      | t => String c t
      end
  end.

(** [strings.TrimSpace]. *)
Definition TrimSpace (s : string) : string := TrimRight (TrimLeft s).

(** [unicode.ToLower] on one byte: 'A'..'Z' move to 'a'..'z'. *)
Definition lowerByte (c : ascii) : ascii :=
  let n := nat_of_ascii c in
  if ((65 <=? n)%nat && (n <=? 90)%nat)%bool then ascii_of_nat (n + 32) else c.

(** [strings.ToLower]. *)
Fixpoint ToLower (s : string) : string :=
  match s with
  | EmptyString => EmptyString
  | String c s' => String (lowerByte c) (ToLower s')
  end.

(** [strings.Split(s, sep)] for a one-byte separator: the parts between
    the occurrences of [sep], one more than there are occurrences. *)
Fixpoint Split (s : string) (sep : ascii) : list string :=
  match s with
  | EmptyString => [EmptyString]
  | String c s' =>
      if Ascii.eqb c sep then EmptyString :: Split s' sep
      else match Split s' sep with
           | p :: ps => String c p :: ps
           | [] => [String c EmptyString]
           end
  end.

(** [strings.Replace(s, old, "", -1)] for a one-byte [old]: every
    occurrence is dropped. *)
Fixpoint ReplaceDrop (s : string) (old : ascii) : string :=
  match s with
  | EmptyString => EmptyString
  | String c s' =>
      if Ascii.eqb c old then ReplaceDrop s' old else String c (ReplaceDrop s' old)
  end.

(** [strings.Index(s, sub)] for a one-byte [sub]: the position of the
    first occurrence, or -1. *)
Fixpoint Index (s : string) (sub : ascii) : Z :=
  match s with
  | EmptyString => -1
  | String c s' =>
      if Ascii.eqb c sub then 0
      else let i := Index s' sub in if i <? 0 then -1 else i + 1
  end.

(** [strings.Contains(s, sub)] for a one-byte [sub]. *)
Definition Contains (s : string) (sub : ascii) : bool := 0 <=? Index s sub.

(** The slice expression [s[:n]]. *)
Fixpoint slice_to (s : string) (n : nat) : string :=
  match n, s with
  | O, _ => EmptyString
  | S n', String c s' => String c (slice_to s' n')
  | S _, EmptyString => EmptyString
  end.

(** [filepath.Ext]: the suffix beginning at the final dot of the final
    path element.  [ExtFrom] scans from the right end: [Some e] once a
    dot or a separator has been met, [None] while neither has. *)
Fixpoint ExtFrom (path : string) : option string :=
  match path with
  | EmptyString => None
  | String c rest =>
      match ExtFrom rest with
      | Some e => Some e
      | None =>
          if Ascii.eqb c "." then Some path
          else if Ascii.eqb c "/" then Some EmptyString
          else None
      end
  end.

Definition Ext (path : string) : string := default EmptyString (ExtFrom path).

(** A string that does not begin with white space. *)
Definition no_lead_space (s : string) : Prop :=
  match s with
  | String c _ => isSpace c = false
  | EmptyString => True
  end.

(** Number of occurrences of a byte; used to state properties. *)
Fixpoint count (s : string) (c : ascii) : nat :=
  match s with
  | EmptyString => O
  | String d s' => ((if Ascii.eqb d c then 1 else 0) + count s' c)%nat
  end.

End GoStrings.

(* ===================================================================== *)
(** ** Package [utils]                                                    *)
(* ===================================================================== *)

Module utils.
Import GoStrings.

(** [min] of two Go ints. *)
Definition min (a b : Z) : Z := if a <? b then a else b.

(** *** The expiring cache *)

Section CacheDefs.
Context {V : Type}.

(** Instants and durations are counted in nanoseconds. *)
Record cacheItem := { value : V; expiration : Z }.

(** [data] is the map guarded by the lock.  [reapers] lists the keys of
    the goroutines that [Get] has started to delete an expired item and
    that have not run yet. *)
Record Cache := { data : gmap string cacheItem; reapers : list string }.

Definition NewCache : Cache := {| data := ∅; reapers := [] |}.

Definition Set_ (now : Z) (key : string) (v : V) (ttl : Z) (c : Cache) : Cache :=
  {| data := <[key := {| value := v; expiration := now + ttl |}]> (data c);
     reapers := reapers c |}.

(** [Get] returns the value and the [found] flag; [time.Now().After(e)]
    is [e < now]. *)
Definition Get (now : Z) (key : string) (c : Cache) : (option V * bool) * Cache :=
  match data c !! key with
  | None => ((None, false), c)
  | Some item =>
      if expiration item <? now
      then ((None, false), {| data := data c; reapers := reapers c ++ [key] |})
      else ((Some (value item), true), c)
  end.

Definition Delete (key : string) (c : Cache) : Cache :=
  {| data := delete key (data c); reapers := reapers c |}.

Definition Clear (c : Cache) : Cache := {| data := ∅; reapers := reapers c |}.

(** One started goroutine takes the lock and runs [delete(c.data, key)]. *)
Definition reap (i : nat) (c : Cache) : Cache :=
  match reapers c !! i with
  | None => c
  | Some key =>
      {| data := delete key (data c);
         reapers := take i (reapers c) ++ drop (S i) (reapers c) |}
  end.

(** The operations that can take the lock, each at its own instant. *)
Inductive cacheOp :=
| OpSet (now : Z) (key : string) (v : V) (ttl : Z)
| OpGet (now : Z) (key : string)
| OpDelete (key : string)
| OpClear
| OpReap (i : nat).

Definition step (c : Cache) (o : cacheOp) : Cache :=
  match o with
  | OpSet now key v ttl => Set_ now key v ttl c
  | OpGet now key => snd (Get now key c)
  | OpDelete key => Delete key c
  | OpClear => Clear c
  | OpReap i => reap i c
  end.

Definition run (ops : list cacheOp) (c : Cache) : Cache := foldl step c ops.

Definition sets_key (key : string) (o : cacheOp) : bool :=
  match o with
  | OpSet _ k _ _ => bool_decide (k = key)
  | _ => false
  end.

(** Every item stored under [key] expires at [e]. *)
Definition expires_at (key : string) (e : Z) (c : Cache) : Prop :=
  ∀ item, data c !! key = Some item → expiration item = e.
End CacheDefs.
Global Arguments cacheItem : clear implicits.
Global Arguments Cache : clear implicits.
Global Arguments cacheOp : clear implicits.

(** *** Email validation *)

Record EmailValidationResult := {
  Email : string;
  IsValid : bool;
  IsDisposable : bool;
  NormalizedEmail : string;
  Reason : string
}.

Global Instance EmailValidationResult_eq_dec : EqDecision EmailValidationResult.
Proof. solve_decision. Defined.

(** The zero value of the struct, as [make] fills a slice with. *)
Definition zeroResult : EmailValidationResult :=
  {| Email := ""; IsValid := false; IsDisposable := false;
     NormalizedEmail := ""; Reason := "" |}.

Definition withReason (r : EmailValidationResult) (reason : string) :=
  {| Email := Email r; IsValid := IsValid r; IsDisposable := IsDisposable r;
     NormalizedEmail := NormalizedEmail r; Reason := reason |}.

Definition withIsValid (r : EmailValidationResult) (b : bool) :=
  {| Email := Email r; IsValid := b; IsDisposable := IsDisposable r;
     NormalizedEmail := NormalizedEmail r; Reason := Reason r |}.

(** The table of disposable domains and its lookup.  The call in
    [ValidateEmailDetailed] is commented out in the source, so nothing
    below reads the table.  The format regex and the MX lookup are dormant
    in the same way and are not embedded. *)
Definition disposableDomains : gmap string bool :=
  list_to_map
    [("mailinator.com", true); ("tempmail.com", true); ("temp-mail.org", true);
     ("guerrillamail.com", true); ("10minutemail.com", true); ("yopmail.com", true);
     ("sharklasers.com", true); ("throwawaymail.com", true); ("dispostable.com", true);
     ("mailnesia.com", true); ("mailcatch.com", true); ("trashmail.com", true);
     ("getnada.com", true); ("temp-mail.ru", true); ("fakeinbox.com", true);
     ("tempinbox.com", true); ("emailfake.com", true)].

Definition isDisposableDomain (domain : string) : bool :=
  default false (disposableDomains !! ToLower domain).

Definition NormalizeEmail (email : string) : string :=
  let email := TrimSpace email in
  let email := ToLower email in
  let parts := Split email "@" in
  match parts with
  | [p0; p1] =>
      if bool_decide (p1 = "gmail.com") then
        let username := ReplaceDrop p0 "." in
        let plusIndex := Index username "+" in
        let username :=
          if 0 <? plusIndex then slice_to username (Z.to_nat plusIndex)
          else username in
        username +:+ "@gmail.com"
      else email
  | _ => email
  end.

Definition ValidateEmailDetailed (email : string) : EmailValidationResult :=
  let email := TrimSpace email in
  let result :=
    {| Email := email; IsValid := false; IsDisposable := false;
       NormalizedEmail := NormalizeEmail email; Reason := "" |} in
  if bool_decide (email = "") then withReason result "Email cannot be empty"
  else
    let parts := Split email "@" in
    if bool_decide (length parts ≠ 2%nat)
    then withReason result "Email must contain exactly one @ symbol"
    else withIsValid result true.

(** *** Batch validation

    The job channel hands every index of [emails] to exactly one of the
    [workerCount] workers, and a worker writes [results[idx]].  A run of
    the pool is the sequence of (worker, index) pairs in the order in
    which the writes happen. *)

Definition workerCount (emails : list string) : Z :=
  min (Z.of_nat (length emails)) 10.

Definition job : Type := nat * nat.

(** [results[idx] = ValidateEmailDetailed(emails[idx])].  Only the indices
    of [emails] are sent on the channel, so [emails[idx]] is in range. *)
Definition worker_step (emails : list string)
    (results : list EmailValidationResult) (j : job) : list EmailValidationResult :=
  <[j.2 := ValidateEmailDetailed (emails !!! j.2)]> results.

Definition ValidateEmailsBatch (sched : list job) (emails : list string)
    : list EmailValidationResult :=
  let results := replicate (length emails) zeroResult in
  foldl (worker_step emails) results sched.

(** A run that a pool of [workers] workers can produce: the indices sent on
    the channel, 0 .. len(emails)-1, are each received once, by one of the
    workers. *)
Definition schedule_of (workers : Z) (emails : list string) (sched : list job) : Prop :=
  sched.*2 ≡ₚ seq 0 (length emails) ∧
  Forall (λ j : job, Z.of_nat j.1 < workers) sched.

End utils.

(* ===================================================================== *)
(** ** The readers of [encoding/csv] and [excelize], as the program sees them *)
(* ===================================================================== *)

Module GoIO.

(** Go [error] values that the extraction can meet. *)
Inductive error :=
| ErrOpen                                  (* os.Open / excelize.OpenFile failed *)
| EOF                                      (* io.EOF *)
| ErrFieldCount                            (* csv.ErrFieldCount *)
| ErrParse                                 (* any other csv.ParseError *)
| ErrRows                                  (* f.Rows or rows.Columns failed *)
| ErrNoSheets                              (* "no sheets found in Excel file" *)
| ErrUnsupported (ext : string).           (* "unsupported file format: %s" *)

Global Instance error_eq_dec : EqDecision error.
Proof. solve_decision. Defined.

(** What the csv parser makes of the next record of the input: its fields,
    or a syntax error. *)
Inductive rawRecord :=
| Fields (fs : list string)
| Malformed.

(** [csv.Reader]: the records not read yet and [FieldsPerRecord], which is
    0 until the first record fixes it. *)
Record csvReader := { pending : list rawRecord; FieldsPerRecord : Z }.

Definition NewReader (recs : list rawRecord) : csvReader :=
  {| pending := recs; FieldsPerRecord := 0 |}.

(** [Read] of [csv.Reader]: the record, the error and the reader afterwards. *)
Definition Read (r : csvReader) : list string * option error * csvReader :=
  match pending r with
  | [] => ([], Some EOF, r)
  | Malformed :: rest =>
      ([], Some ErrParse, {| pending := rest; FieldsPerRecord := FieldsPerRecord r |})
  | Fields fs :: rest =>
      let n := Z.of_nat (length fs) in
      if 0 <? FieldsPerRecord r then
        (fs, (if bool_decide (n ≠ FieldsPerRecord r) then Some ErrFieldCount else None),
         {| pending := rest; FieldsPerRecord := FieldsPerRecord r |})
      else if FieldsPerRecord r =? 0 then
        (fs, None, {| pending := rest; FieldsPerRecord := n |})
      else
        (fs, None, {| pending := rest; FieldsPerRecord := FieldsPerRecord r |})
  end.

(** A spreadsheet as [excelize] opens it: the sheet names and, for a sheet,
    its row iterator; a row is its columns, or [None] where
    [rows.Columns] fails. *)
Record xlsxFile := {
  GetSheetList : list string;
  Rows : string → option (list (option (list string)))
}.

(** A file on disk: what [csv.NewReader] parses out of it, and what
    [excelize.OpenFile] makes of it ([None]: it is not a workbook). *)
Record file := { asCSV : list rawRecord; asXLSX : option xlsxFile }.


(** The file system: [None] where no file can be opened. *)
Definition fileSystem : Type := string → option file.


End GoIO.

(* ===================================================================== *)
(** ** Package [services]                                                 *)
(* ===================================================================== *)

Module services.
Import GoStrings GoIO.

Record EmailEntry := {
  Email : string;
  Source : string;
  IsValid : bool;
  IsDisposable : bool;
  NormalizedEmail : string;
  Status : string;
  Reason : string
}.

Global Instance EmailEntry_eq_dec : EqDecision EmailEntry.
Proof. solve_decision. Defined.

Definition zeroEntry : EmailEntry :=
  {| Email := ""; Source := ""; IsValid := false; IsDisposable := false;
     NormalizedEmail := ""; Status := ""; Reason := "" |}.

(** The counters are Go [int]s bounded by slice lengths, so they never
    wrap; [ProcessingTimeSeconds] is a float64 that the comparison leaves
    at its zero value. *)
Record ValidationSummary := {
  TotalEmailsFirstFile : Z;
  TotalEmailsSecondFile : Z;
  ValidEmailsFirstFile : Z;
  ValidEmailsSecondFile : Z;
  MatchingCount : Z;
  MissingInFirstCount : Z;
  MissingInSecondCount : Z;
  DisposableEmailsCount : Z;
  ProcessingTimeSeconds : Q
}.

(** *** Extraction *)

(** The test of both extractors on the first column of a row. *)
Definition candidate (record : list string) (emails : list string) : list string :=
  match record with
  | r0 :: _ =>
      if bool_decide (r0 ≠ "") then
        if Contains r0 "@" then emails ++ [r0] else emails
      else emails
  | [] => emails
  end.

(** The [for { record, err := reader.Read() ... }] loop.  [fuel] bounds
    the number of iterations; [None] means that it ran out. *)
Fixpoint readLoop (fuel : nat) (reader : csvReader) (emails : list string)
    : option (list string * option error) :=
  match fuel with
  | O => None
  | S fuel' =>
      let '(record, err, reader') := Read reader in
      match err with
      | Some EOF => Some (emails, None)
      | Some e => Some ([], Some e)
      | None => readLoop fuel' reader' (candidate record emails)
      end
  end.

Definition extractEmailsFromCSV (fs : fileSystem) (filePath : string)
    : option (list string * option error) :=
  match fs filePath with
  | None => Some ([], Some ErrOpen)
  | Some f =>
      let reader := NewReader (asCSV f) in
      let '(_, err, reader) := Read reader in
      match err with
      | Some e => Some ([], Some e)
      | None => readLoop (S (length (pending reader))) reader []
      end
  end.

(** The [for rows.Next()] loop. *)
Fixpoint rowsLoop (rows : list (option (list string))) (emails : list string)
    : list string * option error :=
  match rows with
  | [] => (emails, None)
  | None :: _ => ([], Some ErrRows)
  | Some row :: rest => rowsLoop rest (candidate row emails)
  end.

Definition extractEmailsFromExcel (fs : fileSystem) (filePath : string)
    : list string * option error :=
  match fs filePath with
  | None => ([], Some ErrOpen)
  | Some file =>
      match asXLSX file with
      | None => ([], Some ErrOpen)
      | Some f =>
          match GetSheetList f with
          | [] => ([], Some ErrNoSheets)
          | sheet0 :: _ =>
              match Rows f sheet0 with
              | None => ([], Some ErrRows)
              | Some [] => rowsLoop [] []
              | Some (None :: _) => ([], Some ErrRows)
              | Some (Some _ :: rest) => rowsLoop rest []
              end
          end
      end
  end.

Definition extractEmails (fs : fileSystem) (filePath : string)
    : option (list string * option error) :=
  let ext := ToLower (Ext filePath) in
  let res :=
    if bool_decide (ext = ".csv") then extractEmailsFromCSV fs filePath
    else if bool_decide (ext = ".xlsx" ∨ ext = ".xls")
         then Some (extractEmailsFromExcel fs filePath)
         else Some ([], Some (ErrUnsupported ext)) in
  match res with
  | None => None
  | Some (emails, Some err) => Some ([], Some err)
  | Some (emails, None) => Some (emails, None)
  end.

(** *** Validation of one file *)

Definition toEntry (source : string) (v : utils.EmailValidationResult) : EmailEntry :=
  {| Email := utils.Email v;
     Source := source;
     IsValid := utils.IsValid v;
     IsDisposable := utils.IsDisposable v;
     NormalizedEmail := utils.NormalizedEmail v;
     Status := if utils.IsValid v then "Valid" else "Invalid";
     Reason := utils.Reason v |}.

Definition validateEmailList (sched : list utils.job) (emails : list string)
    (source : string) : list EmailEntry :=
  let validationResults := utils.ValidateEmailsBatch sched emails in
  foldl (λ result iv, <[iv.1 := toEntry source iv.2]> result)
        (replicate (length emails) zeroEntry)
        (imap (λ i v, (i, v)) validationResults).

(** *** Comparison *)

(** [for k, v := range m] visits every entry of a Go map once, in an order
    that the language leaves open: the order is a parameter. *)
Definition rangeOrder : Type := gmap string EmailEntry → list (string * EmailEntry).

Definition range_ok (range : rangeOrder) : Prop :=
  ∀ m, range m ≡ₚ map_to_list m.

Definition addValidFirst (s : ValidationSummary) : ValidationSummary :=
  {| TotalEmailsFirstFile := TotalEmailsFirstFile s;
     TotalEmailsSecondFile := TotalEmailsSecondFile s;
     ValidEmailsFirstFile := ValidEmailsFirstFile s + 1;
     ValidEmailsSecondFile := ValidEmailsSecondFile s;
     MatchingCount := MatchingCount s;
     MissingInFirstCount := MissingInFirstCount s;
     MissingInSecondCount := MissingInSecondCount s;
     DisposableEmailsCount := DisposableEmailsCount s;
     ProcessingTimeSeconds := ProcessingTimeSeconds s |}.

Definition addValidSecond (s : ValidationSummary) : ValidationSummary :=
  {| TotalEmailsFirstFile := TotalEmailsFirstFile s;
     TotalEmailsSecondFile := TotalEmailsSecondFile s;
     ValidEmailsFirstFile := ValidEmailsFirstFile s;
     ValidEmailsSecondFile := ValidEmailsSecondFile s + 1;
     MatchingCount := MatchingCount s;
     MissingInFirstCount := MissingInFirstCount s;
     MissingInSecondCount := MissingInSecondCount s;
     DisposableEmailsCount := DisposableEmailsCount s;
     ProcessingTimeSeconds := ProcessingTimeSeconds s |}.

Definition withCounts (s : ValidationSummary) (m mf ms : Z) : ValidationSummary :=
  {| TotalEmailsFirstFile := TotalEmailsFirstFile s;
     TotalEmailsSecondFile := TotalEmailsSecondFile s;
     ValidEmailsFirstFile := ValidEmailsFirstFile s;
     ValidEmailsSecondFile := ValidEmailsSecondFile s;
     MatchingCount := m;
     MissingInFirstCount := mf;
     MissingInSecondCount := ms;
     DisposableEmailsCount := DisposableEmailsCount s;
     ProcessingTimeSeconds := ProcessingTimeSeconds s |}.

(** State of the first loop: the summary and [firstMap]. *)
Definition firstPass (st : ValidationSummary * gmap string EmailEntry) (entry : EmailEntry)
    : ValidationSummary * gmap string EmailEntry :=
  let summary := if IsValid entry then addValidFirst st.1 else st.1 in
  (summary, <[NormalizedEmail entry := entry]> st.2).

(** State of the second loop: the summary, [matching], [missingInFirst]
    and [secondMap]. *)
Record secondState := {
  ss_summary : ValidationSummary;
  ss_matching : list EmailEntry;
  ss_missingInFirst : list EmailEntry;
  ss_secondMap : gmap string EmailEntry
}.

Definition secondPass (firstMap : gmap string EmailEntry) (st : secondState)
    (entry : EmailEntry) : secondState :=
  let summary := if IsValid entry then addValidSecond (ss_summary st) else ss_summary st in
  let '(matching, missingInFirst) :=
    match firstMap !! NormalizedEmail entry with
    | Some firstEntry => (ss_matching st ++ [firstEntry], ss_missingInFirst st)
    | None => (ss_matching st, ss_missingInFirst st ++ [entry])
    end in
  {| ss_summary := summary; ss_matching := matching;
     ss_missingInFirst := missingInFirst;
     ss_secondMap := <[NormalizedEmail entry := entry]> (ss_secondMap st) |}.

Definition thirdPass (secondMap : gmap string EmailEntry)
    (missingInSecond : list EmailEntry) (kv : string * EmailEntry) : list EmailEntry :=
  match secondMap !! kv.1 with
  | None => missingInSecond ++ [kv.2]
  | Some _ => missingInSecond
  end.

Record comparison := {
  matching : list EmailEntry;
  missingInFirst : list EmailEntry;
  missingInSecond : list EmailEntry;
  summary : ValidationSummary
}.

Definition compareEmailEntries (range : rangeOrder)
    (firstEntries secondEntries : list EmailEntry) : comparison :=
  let summary :=
    {| TotalEmailsFirstFile := Z.of_nat (length firstEntries);
       TotalEmailsSecondFile := Z.of_nat (length secondEntries);
       ValidEmailsFirstFile := 0; ValidEmailsSecondFile := 0;
       MatchingCount := 0; MissingInFirstCount := 0; MissingInSecondCount := 0;
       DisposableEmailsCount := 0; ProcessingTimeSeconds := 0%Q |} in
  let '(summary, firstMap) := foldl firstPass (summary, ∅) firstEntries in
  let st := foldl (secondPass firstMap)
              {| ss_summary := summary; ss_matching := [];
                 ss_missingInFirst := []; ss_secondMap := ∅ |} secondEntries in
  let missingInSecond := foldl (thirdPass (ss_secondMap st)) [] (range firstMap) in
  {| matching := ss_matching st;
     missingInFirst := ss_missingInFirst st;
     missingInSecond := missingInSecond;
     summary := withCounts (ss_summary st)
                  (Z.of_nat (length (ss_matching st)))
                  (Z.of_nat (length (ss_missingInFirst st)))
                  (Z.of_nat (length missingInSecond)) |}.

(** *** Report writers *)

Definition fmtBool (b : bool) : string := if b then "Yes" else "No".

(** [fmt.Sprintf("%d", n)]. *)
Definition fmtInt (n : Z) : string := pretty n.

Definition csvHeader : list string :=
  ["Email"; "Normalized Email"; "Source"; "Status"; "Valid"; "Reason"].

Definition csvRow (source status : string) (entry : EmailEntry) : list string :=
  [Email entry; NormalizedEmail entry; source; status;
   fmtBool (IsValid entry); Reason entry].

Definition summaryData (summary : ValidationSummary) : list (string * Z) :=
  [("Total Emails in First File", TotalEmailsFirstFile summary);
   ("Total Emails in Second File", TotalEmailsSecondFile summary);
   ("Valid Emails in First File", ValidEmailsFirstFile summary);
   ("Valid Emails in Second File", ValidEmailsSecondFile summary);
   ("Matching Emails", MatchingCount summary);
   ("Emails Missing in First File", MissingInFirstCount summary);
   ("Emails Missing in Second File", MissingInSecondCount summary);
   ("Disposable Emails", DisposableEmailsCount summary)].

(** The records that [generateEnhancedCSVOutput] hands to [writer.Write],
    in order; a write that fails is outside the model. *)
Definition generateEnhancedCSVOutput
    (matching missingInFirst missingInSecond : list EmailEntry)
    (summary : ValidationSummary) : list (list string) :=
  let w := [csvHeader] in
  let w := foldl (λ w entry, w ++ [csvRow "Both" "Matching" entry]) w matching in
  let w := foldl (λ w entry,
             w ++ [csvRow "Second File Only" "Missing in First File" entry])
             w missingInFirst in
  let w := foldl (λ w entry,
             w ++ [csvRow "First File Only" "Missing in Second File" entry])
             w missingInSecond in
  let w := w ++ [[""]] in
  let w := w ++ [["Summary"]] in
  let w := w ++ [["Metric"; "Value"]] in
  foldl (λ w row, w ++ [[row.1; fmtInt row.2]]) w (summaryData summary).

(** A workbook being written: its sheets and its cells, a cell being
    addressed by sheet and by name ("A1").  Styles and column widths are
    left out. *)
Inductive cellValue := CellStr (s : string) | CellInt (n : Z).

Record workbook := {
  sheets : list string;
  cells : gmap (string * string) cellValue
}.

Definition NewFile : workbook := {| sheets := ["Sheet1"]; cells := ∅ |}.

Definition NewSheet (name : string) (f : workbook) : workbook :=
  {| sheets := sheets f ++ [name]; cells := cells f |}.

Definition SetCellValue (sheet cell : string) (v : cellValue) (f : workbook) : workbook :=
  {| sheets := sheets f; cells := <[(sheet, cell) := v]> (cells f) |}.

Definition DeleteSheet (name : string) (f : workbook) : workbook :=
  {| sheets := filter (λ s, s ≠ name) (sheets f);
     cells := filter (λ kv, kv.1.1 ≠ name) (cells f) |}.

(** [fmt.Sprintf("%s%d", col, row)]. *)
Definition cellName (col : string) (row : Z) : string := col +:+ fmtInt row.

(** [string('A'+i)]. *)
Definition columnLetter (i : nat) : string :=
  String (ascii_of_nat (65 + i)) EmptyString.

Definition resultsSheet : string := "Validation Results".
Definition summarySheet : string := "Summary".

(** The body of each of the three entry loops: six cells and [row++]. *)
Definition writeEntry (source status : string) (st : workbook * Z) (entry : EmailEntry)
    : workbook * Z :=
  let '(f, row) := st in
  let f := SetCellValue resultsSheet (cellName "A" row) (CellStr (Email entry)) f in
  let f := SetCellValue resultsSheet (cellName "B" row) (CellStr (NormalizedEmail entry)) f in
  let f := SetCellValue resultsSheet (cellName "C" row) (CellStr source) f in
  let f := SetCellValue resultsSheet (cellName "D" row) (CellStr status) f in
  let f := SetCellValue resultsSheet (cellName "E" row) (CellStr (fmtBool (IsValid entry))) f in
  let f := SetCellValue resultsSheet (cellName "I" row) (CellStr (Reason entry)) f in
  (f, row + 1).

Definition generateEnhancedExcelOutput
    (matching missingInFirst missingInSecond : list EmailEntry)
    (summary : ValidationSummary) : workbook :=
  let f := NewFile in
  let f := NewSheet resultsSheet f in
  let f := foldl (λ f ih, SetCellValue resultsSheet (cellName (columnLetter ih.1) 1)
                            (CellStr ih.2) f)
             f (imap (λ i h, (i, h)) csvHeader) in
  let st := (f, 2) in
  let st := foldl (writeEntry "Both" "Matching") st matching in
  let st := foldl (writeEntry "Second File Only" "Missing in First File") st missingInFirst in
  let st := foldl (writeEntry "First File Only" "Missing in Second File") st missingInSecond in
  let f := NewSheet summarySheet st.1 in
  let f := SetCellValue summarySheet "A1" (CellStr "Metric") f in
  let f := SetCellValue summarySheet "B1" (CellStr "Value") f in
  let f := foldl (λ f ir,
             let f := SetCellValue summarySheet (cellName "A" (Z.of_nat ir.1 + 2))
                        (CellStr ir.2.1) f in
             SetCellValue summarySheet (cellName "B" (Z.of_nat ir.1 + 2))
                        (CellInt ir.2.2) f)
             f (imap (λ i r, (i, r)) (summaryData summary)) in
  DeleteSheet "Sheet1" f.

End services.

(* ===================================================================== *)
(** ** Vocabulary of the properties                                       *)
(* ===================================================================== *)

Module NormalizerSpec.
Import GoStrings.


(** The text after the first [c]; empty when there is none. *)
Fixpoint after (s : string) (c : ascii) : string :=
  match s with
  | EmptyString => EmptyString
  | String d s' => if Ascii.eqb d c then s' else after s' c
  end.



End NormalizerSpec.

Module ComparatorSpec.
Import services.

(** The keys of a list of entries, in its order. *)
Definition keys (l : list EmailEntry) : list string := NormalizedEmail <$> l.

(** The last entry of [l] that carries the key [k]. *)
Fixpoint lastWithKey (k : string) (l : list EmailEntry) : option EmailEntry :=
  match l with
  | [] => None
  | e :: l' =>
      match lastWithKey k l' with
      | Some x => Some x
      | None => if decide (NormalizedEmail e = k) then Some e else None
      end
  end.

(** [l] without the entries whose key comes again later: one entry per
    key, the last one, in the order of [l]. *)
Fixpoint keepLast (l : list EmailEntry) : list EmailEntry :=
  match l with
  | [] => []
  | e :: l' =>
      if decide (NormalizedEmail e ∈ keys l') then keepLast l' else e :: keepLast l'
  end.

(** How many entries of [l] carry the key [k]. *)
Definition occurrences (k : string) (l : list EmailEntry) : nat :=
  length (filter (λ e, NormalizedEmail e = k) l).

(** The map that the first loop builds. *)
Definition keyMap (l : list EmailEntry) : gmap string EmailEntry :=
  foldl (λ m e, <[NormalizedEmail e := e]> m) ∅ l.

End ComparatorSpec.

Module Samples.
Import GoIO services.

(** An entry as the pipeline builds it from an address of a file. *)
Definition sampleEntry (source address : string) : EmailEntry :=
  toEntry source (utils.ValidateEmailDetailed address).

Definition firstAB : list EmailEntry :=
  [sampleEntry "First File" "a@x.com"; sampleEntry "First File" "b@x.com"].

Definition firstA : list EmailEntry := [sampleEntry "First File" "a@x.com"].

(** The same key twice, in two spellings. *)
Definition secondAA : list EmailEntry :=
  [sampleEntry "Second File" "a@x.com"; sampleEntry "Second File" "A@x.com"].

(** Two orders in which a map can be ranged over. *)
Definition rangeForward : rangeOrder := map_to_list.
Definition rangeBackward : rangeOrder := λ m, reverse (map_to_list m).


(** An address with two '@', present in both files, and the report of the
    comparison that holds it as its one matching entry. *)
Definition invalidBoth : EmailEntry := sampleEntry "First File" "a@b@c".

Definition reportSummary : ValidationSummary :=
  summary (compareEmailEntries rangeForward [invalidBoth] [invalidBoth]).

End Samples.

(* ===================================================================== *)
(** ** The rest of the packages                                           *)
(* ===================================================================== *)

Module domain_check.
Import GoStrings utils.



End domain_check.

Module GoPath.
Import GoStrings.

(** [strings.Join(elems, sep)]. *)
Fixpoint joinWith (sep : string) (elems : list string) : string :=
  match elems with
  | [] => EmptyString
  | [x] => x
  | x :: rest => x +:+ sep +:+ joinWith sep rest
  end.

(** [filepath.Clean] reads the path one element at a time and keeps the
    elements of the result, the last one first: an empty element and "."
    are dropped; ".." removes the element before it, or is kept when the
    path is not rooted and there is nothing to remove. *)
Definition cleanStep (rooted : bool) (kept : list string) (el : string) : list string :=
  if bool_decide (el = "" ∨ el = ".") then kept
  else if bool_decide (el = "..") then
    match kept with
    | top :: rest => if bool_decide (top = "..") then el :: kept else rest
    | [] => if rooted then [] else [el]
    end
  else el :: kept.

Definition Clean (path : string) : string :=
  if bool_decide (path = "") then "."
  else
    let rooted := match path with String c _ => Ascii.eqb c "/" | EmptyString => false end in
    let kept := foldl (cleanStep rooted) [] (Split path "/") in
    let out := (if rooted then "/" else "") +:+ joinWith "/" (reverse kept) in
    if bool_decide (out = "") then "." else out.

(** [filepath.Join]: the elements from the first one that is not empty on,
    joined with "/" and cleaned. *)
Fixpoint Join (elem : list string) : string :=
  match elem with
  | [] => EmptyString
  | e :: rest => if bool_decide (e = "") then Join rest else Clean (joinWith "/" elem)
  end.

End GoPath.

Module pipeline.
Import GoStrings GoPath GoIO services.

(** The file that a report writer leaves on disk. *)
Inductive report :=
| CSVReport (records : list (list string))
| ExcelReport (f : workbook).

(** The errors of the pipeline; a constructor stands for the message that
    [fmt.Errorf] puts in front of the wrapped error. *)
Inductive pipelineError :=
| ErrTempDirectory                      (* "failed to create temp directory: %w" *)
| ErrFirstFile (e : error)              (* "failed to extract emails from first file: %w" *)
| ErrSecondFile (e : error)             (* "failed to extract emails from second file: %w" *)
| ErrOutputFile (ext : string).         (* "failed to generate output file: unsupported output format: %s" *)

(** [generateEnhancedOutputFile]: the file written at [outputPath], if any,
    and the extension that is refused, if it is.  A write that fails is
    outside the model, as for the two writers. *)
Definition generateEnhancedOutputFile (outputPath : string)
    (firstEntries secondEntries matching missingInFirst missingInSecond : list EmailEntry)
    (summary : ValidationSummary) : option report * option string :=
  let ext := ToLower (Ext outputPath) in
  if bool_decide (ext = ".csv") then
    (Some (CSVReport (generateEnhancedCSVOutput matching missingInFirst missingInSecond summary)),
     None)
  else if bool_decide (ext = ".xlsx" ∨ ext = ".xls") then
    (Some (ExcelReport (generateEnhancedExcelOutput matching missingInFirst missingInSecond summary)),
     None)
  else (None, Some ext).

Record ValidationResult := {
  MatchingEmails : list string;
  MissingInFirstFile : list string;
  MissingInSecondFile : list string;
  OutputFileURL : string;
  FileName : string;
  Summary : ValidationSummary
}.

(** What a run of [ValidateEmails] takes from outside: the files on disk,
    whether [os.MkdirAll("./temp")] succeeds, the text that
    [time.Now().Format("20060102_150405")] gives when the output file is
    named, the seconds that [time.Since(startTime)] measures, the run of
    the worker pool for each file, and the order in which the map is
    ranged over. *)
Record environment := {
  files : fileSystem;
  mkdirAll : bool;
  stamp : string;
  elapsedSeconds : Q;
  poolRun : string → list string → list utils.job;
  mapOrder : rangeOrder
}.

Definition withProcessingTime (s : ValidationSummary) (seconds : Q) : ValidationSummary :=
  {| TotalEmailsFirstFile := TotalEmailsFirstFile s;
     TotalEmailsSecondFile := TotalEmailsSecondFile s;
     ValidEmailsFirstFile := ValidEmailsFirstFile s;
     ValidEmailsSecondFile := ValidEmailsSecondFile s;
     MatchingCount := MatchingCount s;
     MissingInFirstCount := MissingInFirstCount s;
     MissingInSecondCount := MissingInSecondCount s;
     DisposableEmailsCount := DisposableEmailsCount s;
     ProcessingTimeSeconds := seconds |}.

(** The outcome of [ValidateEmails]: the result and the error that the
    function returns, and the report file that it has written with its
    path. *)
Record outcome := {
  result : option ValidationResult;
  err : option pipelineError;
  written : option (string * report)
}.

Definition failed (e : pipelineError) : outcome :=
  {| result := None; err := Some e; written := None |}.

(** [ValidateEmails].  The two extractions run side by side and both end
    before their results are looked at, the first one first; so do the two
    validations.  [None] stands for an extraction that ran out of fuel. *)
Definition ValidateEmails (env : environment)
    (firstFilePath secondFilePath outputFormat : string) : option outcome :=
  if negb (mkdirAll env) then Some (failed ErrTempDirectory)
  else
    match extractEmails (files env) firstFilePath,
          extractEmails (files env) secondFilePath with
    | Some firstResult, Some secondResult =>
        match firstResult.2, secondResult.2 with
        | Some e, _ => Some (failed (ErrFirstFile e))
        | None, Some e => Some (failed (ErrSecondFile e))
        | None, None =>
            let firstFileEntries :=
              validateEmailList (poolRun env "First File" firstResult.1)
                firstResult.1 "First File" in
            let secondFileEntries :=
              validateEmailList (poolRun env "Second File" secondResult.1)
                secondResult.1 "Second File" in
            let c := compareEmailEntries (mapOrder env) firstFileEntries secondFileEntries in
            let summary := withProcessingTime (summary c) (elapsedSeconds env) in
            let outputFormat :=
              if bool_decide (outputFormat = "excel") then "xlsx" else outputFormat in
            let outputFileName :=
              "validation_result_" +:+ stamp env +:+ "." +:+ outputFormat in
            let outputFilePath := Join ["./temp"; outputFileName] in
            match generateEnhancedOutputFile outputFilePath firstFileEntries
                    secondFileEntries (matching c) (missingInFirst c)
                    (missingInSecond c) summary with
            | (_, Some ext) => Some (failed (ErrOutputFile ext))
            | (file, None) =>
                Some {| result := Some
                          {| MatchingEmails := Email <$> matching c;
                             MissingInFirstFile := Email <$> missingInFirst c;
                             MissingInSecondFile := Email <$> missingInSecond c;
                             OutputFileURL := "/api/v1/download/" +:+ outputFileName;
                             FileName := outputFileName;
                             Summary := summary |};
                        err := None;
                        written := (λ r, (outputFilePath, r)) <$> file |}
            end
        end
    | _, _ => None
    end.

End pipeline.

Module ExtraSpec.
Import GoStrings GoIO services.

(** The address that a row contributes, if any: its first column when
    that is not empty and holds an '@'. *)
Definition firstColumn (row : list string) : option string :=
  match row with
  | r0 :: _ => if bool_decide (r0 ≠ "") && Contains r0 "@" then Some r0 else None
  | [] => None
  end.

(** How many entries of a list are valid. *)
Definition countValid (l : list EmailEntry) : Z :=
  Z.of_nat (length (filter (λ e, IsValid e = true) l)).

(** The pool run in which one worker takes the indices in order. *)
Definition inOrder (emails : list string) : list utils.job :=
  (λ i, (0%nat, i)) <$> seq 0 (length emails).

(** The entries of a report in the order in which both writers emit them,
    each with its two tags. *)
Definition taggedRows (matching missingInFirst missingInSecond : list EmailEntry)
    : list (string * string * EmailEntry) :=
  ((λ e, ("Both", "Matching", e)) <$> matching)
  ++ ((λ e, ("Second File Only", "Missing in First File", e)) <$> missingInFirst)
  ++ ((λ e, ("First File Only", "Missing in Second File", e)) <$> missingInSecond).



End ExtraSpec.

Module ExtraSamples.
Import GoIO services pipeline ExtraSpec Samples.

(** Two uploaded files that share one address, and a run on them. *)
Definition sampleFiles : fileSystem := λ p,
  if bool_decide (p = "./temp/a.csv")
  then Some {| asCSV := Fields ["Email"] :: (Fields <$> [["a@x.com"]; [" B@x.com"]]);
               asXLSX := None |}
  else if bool_decide (p = "./temp/b.csv")
  then Some {| asCSV := Fields ["Email"] :: (Fields <$> [["b@x.com"]; ["c@x.com"]]);
               asXLSX := None |}
  else None.


End ExtraSamples.

(* ===================================================================== *)
(** ** Package [utils]: the levelled logger                               *)
(* ===================================================================== *)

Module utils_logger.
Import GoStrings.

(** [LogLevel] is an [int]; the five constants are [iota] from 0. *)
Definition LogLevel : Type := Z.
Definition DEBUG : LogLevel := 0.
Definition INFO : LogLevel := 1.
Definition WARN : LogLevel := 2.
Definition ERROR : LogLevel := 3.
Definition FATAL : LogLevel := 4.

Definition levelNames : gmap Z string :=
  {[ DEBUG := "DEBUG"; INFO := "INFO"; WARN := "WARN"; ERROR := "ERROR";
     FATAL := "FATAL" ]}.

(** [levelNames[level]]: the empty string for a key that the map lacks. *)
Definition levelName (level : LogLevel) : string := default "" (levelNames !! level).

(** The writer that [log.New] is given: [os.Stdout], or
    [io.MultiWriter(file, os.Stdout)]. *)
Inductive writer := Stdout | FileAndStdout.

(** The [Logger] struct: [file] tells whether the field is not nil, [mu]
    whether the mutex is held. *)
Record Logger := {
  level : LogLevel;
  logger : writer;
  file : bool;
  mu : bool;
  timeFormat : string
}.

(** What the logger writes to: the lines on the standard output, the lines
    in the log file, and whether the handle of the log file has been
    closed. *)
Record world := { stdout : list string; logFile : list string; closed : bool }.

Definition closeFile (σ : world) : world :=
  {| stdout := stdout σ; logFile := logFile σ; closed := true |}.

(** [l.logger.Println(line)].  The multi-writer writes to the file first
    and stops at the first writer that fails; a closed file fails, and
    [Println] drops the error. *)
Definition Println (out : writer) (line : string) (σ : world) : world :=
  match out with
  | Stdout =>
      {| stdout := stdout σ ++ [line]; logFile := logFile σ; closed := closed σ |}
  | FileAndStdout =>
      if closed σ then σ
      else {| stdout := stdout σ ++ [line]; logFile := logFile σ ++ [line];
              closed := closed σ |}
  end.

(** [filepath.Base]: the last element of the path, trailing slashes
    apart; "." for the empty path and "/" for a path of slashes. *)
Definition Base (path : string) : string :=
  if bool_decide (path = "") then "."
  else default "/" (last (filter (λ el, el ≠ "") (Split path "/"))).

(** How a call ends: it returns, it waits at [l.mu.Lock()], or it ends the
    program with [os.Exit]. *)
Inductive status := Returned | Blocked | Exited (code : Z).

Global Instance status_eq_dec : EqDecision status.
Proof. solve_decision. Defined.

(** A call on a logger ends with a status and leaves a logger and a world. *)
Record run := { st : status; lg : Logger; after : world }.

Definition withMu (l : Logger) (held : bool) : Logger :=
  {| level := level l; logger := logger l; file := file l; mu := held;
     timeFormat := timeFormat l |}.

Definition withLevel (l : Logger) (lvl : LogLevel) : Logger :=
  {| level := lvl; logger := logger l; file := file l; mu := mu l;
     timeFormat := timeFormat l |}.

Definition withFile (l : Logger) (open : bool) : Logger :=
  {| level := level l; logger := logger l; file := open; mu := mu l;
     timeFormat := timeFormat l |}.

Section LoggerDefs.
(** [clock layout] is the text of [time.Now().Format(layout)], and [caller]
    what [runtime.Caller(2)] reports: the file and the line, if known. *)
Variable clock : string → string.
Variable caller : option (string * Z).

(** The line that [log] composes:
    [fmt.Sprintf("[%s] [%s] [%s:%d] %s", timestamp, levelNames[level], file, line, msg)]. *)
Definition logMsg (l : Logger) (lvl : LogLevel) (msg : string) : string :=
  let site := default ("unknown", 0) caller in
  "[" +:+ clock (timeFormat l) +:+ "] [" +:+ levelName lvl +:+ "] ["
    +:+ Base site.1 +:+ ":" +:+ pretty site.2 +:+ "] " +:+ msg.

(** [(l *Logger).log]; [msg] is the text that [fmt.Sprintf(format, args...)]
    gives.  The mutex is taken on entry and released by the deferred
    [Unlock] when the function returns; [os.Exit] runs no deferred call. *)
Definition log (lvl : LogLevel) (msg : string) (l : Logger) (σ : world) : run :=
  if mu l then {| st := Blocked; lg := l; after := σ |}
  else if lvl <? level l then {| st := Returned; lg := l; after := σ |}
  else
    let σ1 := Println (logger l) (logMsg l lvl msg) σ in
    if lvl =? FATAL then
      {| st := Exited 1; lg := withMu l true;
         after := if file l then closeFile σ1 else σ1 |}
    else {| st := Returned; lg := l; after := σ1 |}.

Definition Debug := log DEBUG.
Definition Info := log INFO.
Definition Warn := log WARN.
Definition Error := log ERROR.
Definition Fatal := log FATAL.

(** [(l *Logger).SetLevel]: the level is set and [l.Info] is called while
    the mutex is held. *)
Definition SetLevel (lvl : LogLevel) (l : Logger) (σ : world) : run :=
  if mu l then {| st := Blocked; lg := l; after := σ |}
  else
    let l1 := withLevel (withMu l true) lvl in
    let r := Info ("Log level set to: " +:+ levelName lvl) l1 σ in
    match st r with
    | Returned => {| st := Returned; lg := withMu (lg r) false; after := after r |}
    | _ => r
    end.

(** [(l *Logger).Close]. *)
Definition Close (l : Logger) (σ : world) : run :=
  if mu l then {| st := Blocked; lg := l; after := σ |}
  else if file l then {| st := Returned; lg := withFile l false; after := closeFile σ |}
  else {| st := Returned; lg := l; after := σ |}.

(** The package variables [defaultLogger] and [once]. *)
Record globals := { defaultLogger : option Logger; onceDone : bool }.

Inductive initError :=
| ErrLogDirectory       (* "failed to create log directory: %w" *)
| ErrLogFile.           (* "failed to open log file: %w" *)

(** A call on the package: its status, the error that it returns, and the
    package variables and the world that it leaves. *)
Record packageRun := {
  pst : status; perr : option initError; pglobals : globals; pafter : world
}.

(** Whether [os.MkdirAll(logDir)] and [os.OpenFile(logFile)] succeed. *)
Variable mkdirAll : bool.
Variable openFile : bool.

(** [initDefaultLogger].  The file is opened for appending, so the lines
    that it holds stay. *)
Definition initDefaultLogger (lvl : LogLevel) (format : string)
    (g : globals) (σ : world) : packageRun :=
  if negb mkdirAll then
    {| pst := Returned; perr := Some ErrLogDirectory; pglobals := g; pafter := σ |}
  else if negb openFile then
    {| pst := Returned; perr := Some ErrLogFile; pglobals := g; pafter := σ |}
  else
    let l := {| level := lvl; logger := FileAndStdout; file := true; mu := false;
                timeFormat := format |} in
    let σ0 := {| stdout := stdout σ; logFile := logFile σ; closed := false |} in
    let r := Info ("Logger initialized with level: " +:+ levelName lvl) l σ0 in
    {| pst := st r; perr := None;
       pglobals := {| defaultLogger := Some (lg r); onceDone := onceDone g |};
       pafter := after r |}.

(** [InitLogger]: [once.Do] runs the function the first time only, and
    marks the [Once] as done when the function has returned. *)
Definition InitLogger (lvl : LogLevel) (format : string)
    (g : globals) (σ : world) : packageRun :=
  if onceDone g then {| pst := Returned; perr := None; pglobals := g; pafter := σ |}
  else
    let r := initDefaultLogger lvl format g σ in
    match pst r with
    | Returned =>
        {| pst := Returned; perr := perr r;
           pglobals := {| defaultLogger := defaultLogger (pglobals r); onceDone := true |};
           pafter := pafter r |}
    | _ => r
    end.

(** [GetLogger]; the logger that it returns is [defaultLogger] of the
    package variables that it leaves. *)
Definition GetLogger (g : globals) (σ : world) : packageRun :=
  match defaultLogger g with
  | Some _ => {| pst := Returned; perr := None; pglobals := g; pafter := σ |}
  | None =>
      let l := {| level := INFO; logger := Stdout; file := false; mu := false;
                  timeFormat := "2006-01-02 15:04:05.000" |} in
      let r := Warn "Using default console logger. Call InitLogger() for proper initialization."
                 l σ in
      {| pst := st r; perr := None;
         pglobals := {| defaultLogger := Some (lg r); onceDone := onceDone g |};
         pafter := after r |}
  end.

End LoggerDefs.

(** A message of level [lvl] passes the threshold of [l]. *)
Definition passes (l : Logger) (lvl : LogLevel) : Prop := level l ≤ lvl.

(** The package before any call, and a world with nothing written. *)
Definition initialGlobals : globals := {| defaultLogger := None; onceDone := false |}.
Definition emptyWorld : world := {| stdout := []; logFile := []; closed := false |}.

(** The console logger that [GetLogger] falls back to, with a short time
    layout. *)
Definition consoleLogger : Logger :=
  {| level := INFO; logger := Stdout; file := false; mu := false; timeFormat := "15:04" |}.

End utils_logger.

(* ===================================================================== *)
(** ** Package [utils]: the regular expression of [IsValidEmail]          *)
(* ===================================================================== *)

(** The fragment of Go's [regexp] syntax that [emailRegex] is written in,
    over bytes, and [MatchString] for a pattern that is anchored at both
    ends with [^] and [$]: the whole text has to match. *)
Module GoRegexp.








End GoRegexp.

Module utils_regexp.
Import GoStrings GoRegexp.








End utils_regexp.

(** The address syntax that the expression stands for, in words: a local
    part of one or more permitted bytes, an '@', and a domain of labels
    separated by dots; a label has 1 to 63 letters, digits and hyphens and
    neither begins nor ends with a hyphen. *)
Module AddressSpec.
Import GoStrings utils_regexp.






End AddressSpec.

(* ===================================================================== *)
(** ** Package [handlers]: the upload handler                             *)
(* ===================================================================== *)

(** The handler is embedded as a function from the request to the
    response.  Of the gin context it sees the two uploaded files and the
    form field of the request, and the status, the headers set with
    [c.Header] and the body of the response.  A file name of an upload is
    a base name (mime/multipart passes it through [filepath.Base]), so two
    uploads are saved to the same file exactly when their names are equal.
    The log lines that the handler writes are left out. *)
Module handlers.
Import GoStrings GoPath GoIO services pipeline.

(** [multipart.FileHeader]: the name of the upload and what it holds. *)
Record FileHeader := { Filename : string; upload : file }.

(** The form of the request: [c.FormFile] fails on [None], and
    [c.DefaultPostForm] gives the default on [None]. *)
Record request := {
  formFirstFile : option FileHeader;
  formSecondFile : option FileHeader;
  formOutputFormat : option string
}.

(** The bodies of the error responses; a constructor stands for the
    message under the key "error". *)
Inductive handlerError :=
| ErrFirstRequired                   (* "First file is required" *)
| ErrSecondRequired                  (* "Second file is required" *)
| ErrOutputFormat                    (* "Output format must be 'csv' or 'excel'" *)
| ErrFileFormat                      (* "Invalid file format. Only CSV and Excel files are supported" *)
| ErrSaveFirst                       (* "Failed to save first file" *)
| ErrSaveSecond                      (* "Failed to save second file" *)
| ErrValidation (e : pipelineError)  (* err.Error() *)
| ErrNotFound.                       (* "File not found" *)

(** What [os.Stat] finds at a path and [c.File] sends: the report that
    the run has written there, or a file that was there before. *)
Inductive stored :=
| Written (r : report)
| Kept (f : file).

Inductive responseBody :=
| JSON (e : handlerError)
| File (path : string) (content : stored).

Record response := {
  status : Z;
  header : list (string * string);
  body : responseBody
}.

(** [c.JSON(code, gin.H{"error": ...})]. *)
Definition errorResponse (code : Z) (e : handlerError) : response :=
  {| status := code; header := []; body := JSON e |}.

Definition validExts : gmap string bool :=
  {[ ".csv" := true; ".xlsx" := true; ".xls" := true ]}.

(** [validExts[ext]]: [false] for a key that the map lacks. *)
Definition validExt (ext : string) : bool := default false (validExts !! ext).

(** What a request takes from outside: the environment of the pipeline,
    whose [files] are the files on disk before the request, and whether the
    two calls of [c.SaveUploadedFile] succeed. *)
Record environment := {
  pipe : pipeline.environment;
  saveFirst : bool;
  saveSecond : bool
}.

(** [c.SaveUploadedFile(file, dst)]: the disk afterwards, or [None] for an
    error. *)
Definition SaveUploadedFile (ok : bool) (fs : fileSystem) (f : FileHeader) (dst : string)
    : option fileSystem :=
  if ok then Some (λ p, if bool_decide (p = dst) then Some (upload f) else fs p)
  else None.

Definition withFiles (env : pipeline.environment) (fs : fileSystem) : pipeline.environment :=
  {| files := fs; mkdirAll := mkdirAll env; stamp := stamp env;
     elapsedSeconds := elapsedSeconds env; poolRun := poolRun env;
     mapOrder := mapOrder env |}.

(** [os.Stat(path)] after the run of the pipeline. *)
Definition Stat (fs : fileSystem) (written : option (string * report)) (path : string)
    : option stored :=
  match written with
  | Some (p, r) => if bool_decide (p = path) then Some (Written r) else Kept <$> fs path
  | None => Kept <$> fs path
  end.

Definition contentTypeOf (ext : string) : string :=
  if bool_decide (ext = ".csv") then "text/csv"
  else if bool_decide (ext = ".xlsx" ∨ ext = ".xls")
       then "application/vnd.openxmlformats-officedocument.spreadsheetml.sheet"
       else "application/octet-stream".

(** [ValidateEmails(c *gin.Context)].  [None] stands for a run of the
    pipeline that gives no outcome, or a nil result with a nil error. *)
Definition ValidateEmails (env : environment) (req : request) : option response :=
  match formFirstFile req with
  | None => Some (errorResponse 400 ErrFirstRequired)
  | Some firstFile =>
  match formSecondFile req with
  | None => Some (errorResponse 400 ErrSecondRequired)
  | Some secondFile =>
  let outputFormat := default "csv" (formOutputFormat req) in
  if bool_decide (outputFormat ≠ "csv" ∧ outputFormat ≠ "excel")
  then Some (errorResponse 400 ErrOutputFormat)
  else
  let firstFileExt := Ext (Filename firstFile) in
  let secondFileExt := Ext (Filename secondFile) in
  if negb (validExt firstFileExt) || negb (validExt secondFileExt)
  then Some (errorResponse 400 ErrFileFormat)
  else
  let firstFilePath := "./temp/" +:+ Filename firstFile in
  let secondFilePath := "./temp/" +:+ Filename secondFile in
  match SaveUploadedFile (saveFirst env) (files (pipe env)) firstFile firstFilePath with
  | None => Some (errorResponse 500 ErrSaveFirst)
  | Some fs1 =>
  match SaveUploadedFile (saveSecond env) fs1 secondFile secondFilePath with
  | None => Some (errorResponse 500 ErrSaveSecond)
  | Some fs2 =>
  match pipeline.ValidateEmails (withFiles (pipe env) fs2)
          firstFilePath secondFilePath outputFormat with
  | None => None
  | Some o =>
      match err o, result o with
      | Some e, _ => Some (errorResponse 500 (ErrValidation e))
      | None, None => None
      | None, Some result =>
          let filePath := Join ["./temp"; FileName result] in
          match Stat fs2 (written o) filePath with
          | None => Some (errorResponse 404 ErrNotFound)
          | Some content =>
              let ext := Ext (FileName result) in
              Some {| status := 200;
                      header :=
                        [("Content-Description", "File Transfer");
                         ("Content-Disposition",
                          "attachment; filename=" +:+ FileName result);
                         ("Content-Type", contentTypeOf ext)];
                      body := File filePath content |}
          end
      end
  end end end end end.

(** The four errors that the checks of the request give. *)
Definition requestError (e : handlerError) : Prop :=
  match e with
  | ErrFirstRequired | ErrSecondRequired | ErrOutputFormat | ErrFileFormat => True
  | _ => False
  end.



(** The disk after the two uploads have been saved, the second one last. *)
Definition afterSaves (fs : fileSystem) (f1 f2 : FileHeader) : fileSystem :=
  λ p, if bool_decide (p = "./temp/" +:+ Filename f2) then Some (upload f2)
       else if bool_decide (p = "./temp/" +:+ Filename f1) then Some (upload f1)
       else fs p.

(** The response that sends the report [rep] written under [name]. *)
Definition fileResponse (name : string) (rep : report) : response :=
  {| status := 200;
     header := [("Content-Description", "File Transfer");
                ("Content-Disposition", "attachment; filename=" +:+ name);
                ("Content-Type", contentTypeOf (Ext name))];
     body := File (Join ["./temp"; name]) (Written rep) |}.


(** A request that the handler refuses with status 400. *)
Definition refused (req : request) : Prop :=
  formFirstFile req = None ∨ formSecondFile req = None ∨
  (∃ fmt, formOutputFormat req = Some fmt ∧ fmt ≠ "csv" ∧ fmt ≠ "excel") ∨
  (∃ f, (formFirstFile req = Some f ∨ formSecondFile req = Some f) ∧
        Ext (Filename f) ∉ [".csv"; ".xlsx"; ".xls"]).

(** The request with the second upload in the place of the first. *)
Definition secondTwice (req : request) : request :=
  {| formFirstFile := formSecondFile req;
     formSecondFile := formSecondFile req;
     formOutputFormat := formOutputFormat req |}.

End handlers.

Module HandlerSamples.
Import GoIO services pipeline handlers ExtraSpec Samples.

Definition uploadA : FileHeader :=
  {| Filename := "a.csv";
     upload := {| asCSV := Fields ["Email"] :: (Fields <$> [["a@x.com"]; [" B@x.com"]]);
                  asXLSX := None |} |}.

Definition uploadB : FileHeader :=
  {| Filename := "b.csv";
     upload := {| asCSV := Fields ["Email"] :: (Fields <$> [["b@x.com"]; ["c@x.com"]]);
                  asXLSX := None |} |}.

(** An upload with the name of [uploadA] and the content of [uploadB]. *)
Definition uploadA' : FileHeader :=
  {| Filename := "a.csv"; upload := upload uploadB |}.

Definition emptyDisk : fileSystem := λ _, None.

Definition sampleHandlerEnv : handlers.environment :=
  {| pipe := {| files := emptyDisk; mkdirAll := true; stamp := "20240101_120000";
                elapsedSeconds := 0%Q; poolRun := λ _, inOrder;
                mapOrder := rangeForward |};
     saveFirst := true; saveSecond := true |}.




Definition sameNameRequest : request :=
  {| formFirstFile := Some uploadA; formSecondFile := Some uploadA';
     formOutputFormat := Some "excel" |}.

End HandlerSamples.

(* ===================================================================== *)
(** ** Facts about the string functions                                   *)
(* ===================================================================== *)

Section StringFacts.
Import GoStrings.








(** *** Trimming *)


Lemma TrimLeft_no_lead s : no_lead_space (TrimLeft s).
Proof.
  induction s as [|c s IH]; simpl; [done|].
  destruct (isSpace c) eqn:E; [done|]. simpl. done.
Qed.

Lemma TrimLeft_fixed s : no_lead_space s → TrimLeft s = s.
Proof. destruct s as [|c s]; simpl; [done|]. by intros ->. Qed.

Lemma TrimRight_no_lead s : no_lead_space s → no_lead_space (TrimRight s).
Proof.
  destruct s as [|c s]; simpl; [done|]. intros Hc.
  destruct (TrimRight s); simpl; [by rewrite Hc|done].
Qed.

Lemma TrimRight_idemp s : TrimRight (TrimRight s) = TrimRight s.
Proof.
  induction s as [|c s IH]; simpl; [done|].
  destruct (TrimRight s) as [|d t] eqn:E.
  - destruct (isSpace c) eqn:Hc; simpl; [done|by rewrite Hc].
  - simpl in *. by rewrite IH.
Qed.

Lemma TrimSpace_idemp s : TrimSpace (TrimSpace s) = TrimSpace s.
Proof.
  unfold TrimSpace.
  rewrite (TrimLeft_fixed (TrimRight (TrimLeft s))).
  - apply TrimRight_idemp.
  - apply TrimRight_no_lead, TrimLeft_no_lead.
Qed.

Lemma TrimSpace_no_lead s : no_lead_space (TrimSpace s).
Proof. apply TrimRight_no_lead, TrimLeft_no_lead. Qed.




(** *** Lower-casing *)






(** *** Counting, splitting, searching *)

Lemma Split_length s c : length (Split s c) = S (count s c).
Proof.
  induction s as [|d s IH]; simpl; [done|].
  destruct (Ascii.eqb d c); simpl; [by rewrite IH|].
  destruct (Split s c); simpl in *; lia.
Qed.









Lemma Index_free s c : count s c = 0%nat → Index s c = -1.
Proof.
  induction s as [|e s IH]; simpl; [done|].
  destruct (Ascii.eqb e c); [done|]. intros H. by rewrite IH.
Qed.

Lemma Index_found s c : (0 < count s c)%nat → 0 ≤ Index s c.
Proof.
  induction s as [|e s IH]; simpl; [lia|].
  destruct (Ascii.eqb e c); [done|]. intros H.
  specialize (IH H). case_match; lia.
Qed.


(** *** Lengths *)










End StringFacts.

(* ===================================================================== *)
(** ** The normalizer and the validator                                   *)
(* ===================================================================== *)


Section NormalizerValidator.
Import GoStrings utils NormalizerSpec.



















(** C4. [ValidateEmailDetailed] declares an address valid exactly when its
    trimmed form is not empty and splits on '@' into two parts, that is,
    holds exactly one '@'; nothing else enters the verdict. *)
Theorem ValidateEmailDetailed_valid_iff x :
  (IsValid (ValidateEmailDetailed x) = true ↔
     TrimSpace x ≠ "" ∧ length (Split (TrimSpace x) "@") = 2%nat) ∧
  (length (Split (TrimSpace x) "@") = 2%nat ↔ count (TrimSpace x) "@" = 1%nat) ∧
  (IsValid (ValidateEmailDetailed x) = true ↔ count (TrimSpace x) "@" = 1%nat).
Proof.
  assert (Hlen : length (Split (TrimSpace x) "@") = 2%nat ↔
                 count (TrimSpace x) "@" = 1%nat).
  { rewrite Split_length. lia. }
  assert (Hv : IsValid (ValidateEmailDetailed x) = true ↔
     TrimSpace x ≠ "" ∧ length (Split (TrimSpace x) "@") = 2%nat).
  { unfold ValidateEmailDetailed. cbv zeta.
    case_bool_decide as He; simpl.
    - split; [done|]. by intros [? _].
    - case_bool_decide as Hp; simpl.
      + split; [done|]. by intros [_ ?].
      + split; [|done]. intros _. split; [done|].
        destruct (decide (length (Split (TrimSpace x) "@") = 2%nat)); [done|by destruct Hp]. }
  split; [done|]. split; [done|].
  rewrite Hv, Hlen. split; [by intros [_ ?]|].
  intros Hc. split; [|done]. intros He. rewrite He in Hc. done.
Qed.

Example ValidateEmailDetailed_samples :
  IsValid (ValidateEmailDetailed "A@B") = true ∧
  IsValid (ValidateEmailDetailed "no-at-sign") = false ∧
  IsValid (ValidateEmailDetailed "a@b@c") = false ∧
  IsValid (ValidateEmailDetailed "   ") = false.
Proof. by vm_compute. Qed.

End NormalizerValidator.

(* ===================================================================== *)
(** ** Batch validation: the worker pool                                  *)
(* ===================================================================== *)

Section BatchValidation.
Import GoStrings utils.


Lemma ValidateEmailDetailed_not_disposable x :
  IsDisposable (ValidateEmailDetailed x) = false.
Proof. unfold ValidateEmailDetailed. cbv zeta. by repeat case_bool_decide. Qed.

(** The key is computed from the trimmed address, on every path. *)
Lemma ValidateEmailDetailed_NormalizedEmail x :
  NormalizedEmail (ValidateEmailDetailed x) = NormalizeEmail (TrimSpace x).
Proof. unfold ValidateEmailDetailed. cbv zeta. by repeat case_bool_decide. Qed.

Variable emails : list string.

Lemma worker_steps_length sched results :
  length (foldl (worker_step emails) results sched) = length results.
Proof.
  revert results; induction sched as [|j sched IH]; intros results; simpl; [done|].
  rewrite IH. apply length_insert.
Qed.

Lemma worker_steps_untouched sched results i :
  i ∉ sched.*2 → foldl (worker_step emails) results sched !! i = results !! i.
Proof.
  revert results; induction sched as [|j sched IH]; intros results Hi; simpl; [done|].
  rewrite fmap_cons, not_elem_of_cons in Hi. destruct Hi as [Hne Hi].
  rewrite IH by done. unfold worker_step. by rewrite list_lookup_insert_ne.
Qed.

Lemma worker_steps_written sched results i :
  i ∈ sched.*2 → (i < length results)%nat →
  foldl (worker_step emails) results sched !! i
    = Some (ValidateEmailDetailed (emails !!! i)).
Proof.
  revert results; induction sched as [|j sched IH]; intros results Hi Hlt; simpl.
  { by apply elem_of_nil in Hi. }
  destruct (decide (i ∈ sched.*2)) as [Hin|Hout].
  - apply IH; [done|]. unfold worker_step. by rewrite length_insert.
  - rewrite fmap_cons, elem_of_cons in Hi. destruct Hi as [->|?]; [|done].
    rewrite worker_steps_untouched by done.
    unfold worker_step. by rewrite list_lookup_insert_eq.
Qed.

(** Whatever the order of the writes, the slice that the pool returns is
    the input mapped through [ValidateEmailDetailed]. *)
Lemma ValidateEmailsBatch_is_map sched :
  sched.*2 ≡ₚ seq 0 (length emails) →
  ValidateEmailsBatch sched emails = ValidateEmailDetailed <$> emails.
Proof.
  intros Hp. unfold ValidateEmailsBatch. apply list_eq; intros i.
  destruct (decide (i < length emails)%nat) as [Hlt|Hge].
  - rewrite worker_steps_written.
    + rewrite list_lookup_fmap.
      destruct (lookup_lt_is_Some_2 emails i Hlt) as [x Hx].
      by rewrite (list_lookup_total_correct _ _ _ Hx), Hx.
    + rewrite Hp. apply elem_of_seq. lia.
    + by rewrite length_replicate.
  - rewrite !lookup_ge_None_2; [done| |].
    + rewrite length_fmap. lia.
    + rewrite worker_steps_length, length_replicate. lia.
Qed.

(** Every slot, written or not, holds no disposable flag. *)
Lemma worker_steps_not_disposable sched results :
  Forall (λ r, IsDisposable r = false) results →
  Forall (λ r, IsDisposable r = false) (foldl (worker_step emails) results sched).
Proof.
  revert results; induction sched as [|j sched IH]; intros results H; simpl; [done|].
  apply IH. unfold worker_step. apply Forall_insert; [done|].
  apply ValidateEmailDetailed_not_disposable.
Qed.

End BatchValidation.

Section BatchClaims.
Import GoStrings utils.

(** The pool that the code starts has [min(len(emails), 10)] workers. *)
Lemma workerCount_bound emails :
  workerCount emails = Z.min (Z.of_nat (length emails)) 10.
Proof. unfold workerCount, min. case_match; lia. Qed.




End BatchClaims.

(* ===================================================================== *)
(** ** The expiring cache                                                 *)
(* ===================================================================== *)

Section CacheFacts.
Import utils.
Context {V : Type}.
Implicit Types (c : Cache V) (o : cacheOp V).


Lemma Set_expires_at now key v ttl c :
  expires_at key (now + ttl) (Set_ now key v ttl c).
Proof.
  intros item. unfold Set_; simpl. rewrite lookup_insert_eq. by intros [= <-].
Qed.

Lemma step_expires_at key e c o :
  sets_key key o = false → expires_at key e c → expires_at key e (step c o).
Proof.
  intros Ho Hc item. destruct o as [now k v ttl|now k|k| |i]; simpl in *.
  - apply bool_decide_eq_false in Ho. rewrite lookup_insert_ne by done. apply Hc.
  - unfold Get. destruct (data c !! k) as [it|]; [|apply Hc].
    destruct (expiration it <? now); apply Hc.
  - rewrite lookup_delete. case_decide; [done|apply Hc].
  - by rewrite lookup_empty.
  - unfold reap. destruct (reapers c !! i) as [k|]; [|apply Hc]. simpl.
    rewrite lookup_delete. case_decide; [done|apply Hc].
Qed.

Lemma run_expires_at key e ops c :
  Forall (λ o, sets_key key o = false) ops →
  expires_at key e c → expires_at key e (run ops c).
Proof.
  unfold run. revert c; induction ops as [|o ops IH]; intros c Hops Hc; simpl; [done|].
  inversion Hops; subst. apply IH; [done|]. by apply step_expires_at.
Qed.

Lemma Get_expired now key e c :
  expires_at key e c → e < now → (Get now key c).1 = (None, false).
Proof.
  intros Hc Hlt. unfold Get. destruct (data c !! key) as [item|] eqn:E; [|done].
  rewrite (Hc item E). by rewrite (proj2 (Z.ltb_lt e now) Hlt).
Qed.

(** A hit is never an item past its expiration. *)
Lemma Get_hit_not_expired now key v c c' :
  Get now key c = ((Some v, true), c') →
  ∃ item, data c !! key = Some item ∧ value item = v ∧ now ≤ expiration item ∧ c' = c.
Proof.
  unfold Get. destruct (data c !! key) as [item|]; [|done].
  destruct (expiration item <? now) eqn:E; [done|].
  intros [= <- <-]. exists item. apply Z.ltb_ge in E. done.
Qed.

(** The removal itself is left to a goroutine: the expired item stays in
    the map until that goroutine has run. *)
Lemma Get_expired_defers now key item c :
  data c !! key = Some item → expiration item < now →
  data (Get now key c).2 = data c ∧
  reapers (Get now key c).2 = reapers c ++ [key] ∧
  data (reap (length (reapers c)) (Get now key c).2) !! key = None.
Proof.
  intros E Hlt. unfold Get. rewrite E, (proj2 (Z.ltb_lt _ _) Hlt). simpl.
  split; [done|]. split; [done|]. unfold reap; simpl.
  rewrite lookup_app_r, Nat.sub_diag by done. simpl. apply lookup_delete_eq.
Qed.

(** C9. After [Set(k, v, ttl)] at instant [t0], a [Get(k)] at any instant
    later than the stored expiration [t0 + ttl] reports the key as not
    found, whatever other operations of the cache (reads, deletions, the
    deferred removals, writes of other keys) ran in between. *)
Theorem Get_after_expiry_not_found c t0 key v ttl ops t1 :
  Forall (λ o, sets_key key o = false) ops →
  t0 + ttl < t1 →
  (Get t1 key (run ops (Set_ t0 key v ttl c))).1 = (None, false).
Proof.
  intros Hops Hlt. apply (Get_expired _ _ (t0 + ttl)); [|done].
  apply run_expires_at; [done|]. apply Set_expires_at.
Qed.

End CacheFacts.

(** The scenario of the cache: [Set("k", true, 1ms)], then a [Get("k")]
    two milliseconds later. *)
Lemma Get_after_expiry_not_found_witness :
  (utils.Get 2000000 "k" (utils.run [] (utils.Set_ 0 "k" true 1000000 utils.NewCache))).1
    = (None, false).
Proof.
  apply (Get_after_expiry_not_found utils.NewCache 0 "k" true 1000000 [] 2000000).
  - constructor.
  - lia.
Defined.

(* ===================================================================== *)
(** ** Extraction                                                         *)
(* ===================================================================== *)

Section Extractor.
Import GoStrings GoIO services.


(** [Read] on a reader that has a record left. *)
Lemma Read_Fields r fs rest :
  pending r = Fields fs :: rest →
  ∃ err n,
    Read r = (fs, err, {| pending := rest; FieldsPerRecord := n |}) ∧
    (err = None ∨ err = Some ErrFieldCount) ∧
    (0 < FieldsPerRecord r →
       n = FieldsPerRecord r ∧
       (Z.of_nat (length fs) ≠ FieldsPerRecord r → err = Some ErrFieldCount)).
Proof.
  intros E. unfold Read. rewrite E.
  destruct (0 <? FieldsPerRecord r) eqn:Hpos.
  - eexists _, _. split; [done|]. split.
    + case_bool_decide; auto.
    + intros _. split; [done|]. intros Hne. by rewrite bool_decide_eq_true_2.
  - apply Z.ltb_ge in Hpos.
    destruct (FieldsPerRecord r =? 0); eexists _, _;
      (split; [done|]); (split; [by left|]); lia.
Qed.

(** The loop ends within one iteration per record left, plus one. *)
Lemma readLoop_total fuel r emails :
  (length (pending r) < fuel)%nat → is_Some (readLoop fuel r emails).
Proof.
  revert r emails; induction fuel as [|fuel IH]; intros r emails Hlen; [lia|].
  simpl. destruct (pending r) as [|[fs|] rest] eqn:E.
  - unfold Read. rewrite E. by eexists.
  - destruct (Read_Fields r fs rest E) as (err & n & -> & [->| ->] & _).
    + apply IH. simpl. simpl in Hlen. lia.
    + by eexists.
  - unfold Read. rewrite E. by eexists.
Qed.

(** An error never comes with addresses. *)
Lemma readLoop_no_partial fuel r emails out e :
  readLoop fuel r emails = Some (out, Some e) → out = [].
Proof.
  revert r emails; induction fuel as [|fuel IH]; intros r emails; simpl; [done|].
  destruct (Read r) as [[record err] r'].
  destruct err as [e'|]; [|apply IH].
  destruct e'; intros [=]; by subst.
Qed.


Lemma extractEmailsFromCSV_total fs path : is_Some (extractEmailsFromCSV fs path).
Proof.
  unfold extractEmailsFromCSV. destruct (fs path) as [f|]; [|by eexists].
  destruct (Read (NewReader (asCSV f))) as [[record err] r'].
  destruct err; [by eexists|]. apply readLoop_total. lia.
Qed.





End Extractor.



(* ===================================================================== *)
(** ** The comparator                                                     *)
(* ===================================================================== *)


Section ComparatorFacts.
Import services ComparatorSpec.
Implicit Types (A B l : list EmailEntry) (e : EmailEntry) (k : string).

Lemma lastWithKey_None k l : lastWithKey k l = None ↔ k ∉ keys l.
Proof.
  induction l as [|e l IH]; simpl.
  - split; [intros _; apply not_elem_of_nil|done].
  - rewrite not_elem_of_cons, <- IH.
    destruct (lastWithKey k l); [intuition congruence|].
    case_decide; intuition congruence.
Qed.

Lemma lastWithKey_Some k l e :
  lastWithKey k l = Some e → NormalizedEmail e = k ∧ e ∈ l.
Proof.
  induction l as [|a l IH]; simpl; [done|].
  destruct (lastWithKey k l).
  - intros [= ->]. destruct IH as [? ?]; [done|]. split; [done|by right].
  - case_decide; [|done]. intros [= ->]. split; [done|by left].
Qed.

Lemma lastWithKey_is_Some k l : is_Some (lastWithKey k l) ↔ k ∈ keys l.
Proof.
  rewrite <- not_eq_None_Some, lastWithKey_None.
  split; [apply dec_stable|by intros ? ?].
Qed.

Lemma keepLast_elem l e :
  e ∈ keepLast l ↔ lastWithKey (NormalizedEmail e) l = Some e.
Proof.
  induction l as [|a l IH]; simpl.
  - split; [by intros ?%elem_of_nil|done].
  - case_decide as Ha.
    + rewrite IH. destruct (lastWithKey (NormalizedEmail e) l) eqn:E; [done|].
      apply lastWithKey_None in E. case_decide; [|done].
      split; [done|]. intros [= ->]. done.
    + rewrite elem_of_cons, IH.
      apply lastWithKey_None in Ha.
      destruct (lastWithKey (NormalizedEmail e) l) eqn:E.
      * split; [|by right]. intros [->|?]; [congruence|done].
      * case_decide; [|intuition congruence].
        split; [intros [->|?]; done|]. intros [= ->]. by left.
Qed.

Lemma keepLast_keys l k : k ∈ keys (keepLast l) ↔ k ∈ keys l.
Proof.
  unfold keys. rewrite !list_elem_of_fmap. split.
  - intros (e & -> & He). apply keepLast_elem, lastWithKey_Some in He as [_ He].
    by exists e.
  - intros (e & -> & He).
    assert (Hs : is_Some (lastWithKey (NormalizedEmail e) l)).
    { apply lastWithKey_is_Some. unfold keys. apply list_elem_of_fmap. by exists e. }
    destruct Hs as [x Hx]. exists x.
    destruct (lastWithKey_Some _ _ _ Hx) as [Hk _]. split; [done|].
    apply keepLast_elem. by rewrite Hk.
Qed.

Lemma keepLast_keys_NoDup l : NoDup (keys (keepLast l)).
Proof.
  induction l as [|a l IH]; simpl; [constructor|].
  case_decide as Ha; [done|].
  unfold keys. rewrite fmap_cons. constructor; [|done].
  fold (keys (keepLast l)). by rewrite keepLast_keys.
Qed.

(** *** The three loops *)

Lemma inserts_lookup (m : gmap string EmailEntry) l k :
  foldl (λ m e, <[NormalizedEmail e := e]> m) m l !! k
    = match lastWithKey k l with Some e => Some e | None => m !! k end.
Proof.
  revert m; induction l as [|a l IH]; intros m; simpl; [done|].
  rewrite IH. destruct (lastWithKey k l); [done|].
  case_decide as Hk.
  - subst k. by rewrite lookup_insert_eq.
  - by rewrite lookup_insert_ne.
Qed.

Lemma keyMap_lookup l k : keyMap l !! k = lastWithKey k l.
Proof.
  unfold keyMap. rewrite inserts_lookup, lookup_empty. by destruct (lastWithKey k l).
Qed.

Lemma firstPass_map s (m : gmap string EmailEntry) l :
  (foldl firstPass (s, m) l).2 = foldl (λ m e, <[NormalizedEmail e := e]> m) m l.
Proof.
  revert s m; induction l as [|a l IH]; intros s m; simpl; [done|].
  unfold firstPass at 2. simpl. apply IH.
Qed.

Lemma firstPass_disposable s (m : gmap string EmailEntry) l :
  DisposableEmailsCount (foldl firstPass (s, m) l).1 = DisposableEmailsCount s.
Proof.
  revert s m; induction l as [|a l IH]; intros s m; simpl; [done|].
  unfold firstPass at 2. simpl. rewrite IH. by destruct (IsValid a).
Qed.

Lemma secondPass_fold fm st l :
  let st' := foldl (secondPass fm) st l in
  ss_matching st' = ss_matching st ++ omap (λ e, fm !! NormalizedEmail e) l ∧
  ss_missingInFirst st'
    = ss_missingInFirst st ++ filter (λ e, fm !! NormalizedEmail e = None) l ∧
  ss_secondMap st'
    = foldl (λ m e, <[NormalizedEmail e := e]> m) (ss_secondMap st) l ∧
  DisposableEmailsCount (ss_summary st') = DisposableEmailsCount (ss_summary st).
Proof.
  revert st; induction l as [|a l IH]; intros st; simpl.
  { by rewrite !app_nil_r. }
  destruct (IH (secondPass fm st a)) as (-> & -> & -> & ->).
  unfold secondPass. rewrite filter_cons.
  destruct (fm !! NormalizedEmail a) as [f|] eqn:E; simpl.
  - rewrite <- app_assoc. repeat split; by destruct (IsValid a).
  - rewrite <- app_assoc. repeat split; by destruct (IsValid a).
Qed.

Lemma thirdPass_fold (sm : gmap string EmailEntry) acc (l : list (string * EmailEntry)) :
  foldl (thirdPass sm) acc l = acc ++ (filter (λ kv, sm !! kv.1 = None) l).*2.
Proof.
  revert acc; induction l as [|kv l IH]; intros acc; simpl.
  { by rewrite app_nil_r. }
  rewrite IH, filter_cons. unfold thirdPass.
  destruct (sm !! kv.1) eqn:E.
  - by rewrite decide_False.
  - rewrite decide_True by done. by rewrite fmap_cons, <- app_assoc.
Qed.

(** What [compareEmailEntries] returns, loop by loop. *)
Lemma compareEmailEntries_lists range A B :
  let c := compareEmailEntries range A B in
  matching c = omap (λ e, lastWithKey (NormalizedEmail e) A) B ∧
  missingInFirst c = filter (λ e, NormalizedEmail e ∉ keys A) B ∧
  missingInSecond c = (filter (λ kv, kv.1 ∉ keys B) (range (keyMap A))).*2 ∧
  DisposableEmailsCount (summary c) = 0.
Proof.
  unfold compareEmailEntries.
  match goal with |- context [foldl firstPass (?s, ∅) A] =>
    pose proof (firstPass_map s ∅ A) as Hm;
    pose proof (firstPass_disposable s ∅ A) as Hd;
    destruct (foldl firstPass (s, ∅) A) as [s1 fm] end.
  simpl in Hm, Hd. fold (keyMap A) in Hm. subst fm.
  match goal with |- context [foldl (secondPass _) ?st B] =>
    destruct (secondPass_fold (keyMap A) st B) as (Hmatch & Hmiss & Hsm & Hd2) end.
  simpl in *. fold (keyMap B) in Hsm.
  rewrite Hmatch, Hmiss, Hsm, thirdPass_fold. simpl.
  repeat split.
  - apply list_omap_ext. eapply Forall2_same_length_lookup_2; [done|].
    intros i x y Hx Hy. assert (x = y) as -> by congruence. apply keyMap_lookup.
  - apply list_filter_iff. intros e. by rewrite keyMap_lookup, lastWithKey_None.
  - f_equal. apply list_filter_iff. intros kv.
    by rewrite keyMap_lookup, lastWithKey_None.
  - congruence.
Qed.

(** The entries of [keyMap A] are the entries of [keepLast A]. *)
Lemma keyMap_to_list A :
  map_to_list (keyMap A) ≡ₚ (λ e, (NormalizedEmail e, e)) <$> keepLast A.
Proof.
  apply NoDup_Permutation.
  - apply NoDup_map_to_list.
  - apply (NoDup_fmap_1 fst). rewrite <- list_fmap_compose.
    apply keepLast_keys_NoDup.
  - intros [k e]. rewrite elem_of_map_to_list, keyMap_lookup, list_elem_of_fmap.
    split.
    + intros He. exists e. destruct (lastWithKey_Some _ _ _ He) as [<- _].
      split; [done|]. by apply keepLast_elem.
    + intros (x & [= -> ->] & Hx). by apply keepLast_elem.
Qed.

Lemma missingInSecond_perm range A B :
  range_ok range →
  missingInSecond (compareEmailEntries range A B)
    ≡ₚ filter (λ e, NormalizedEmail e ∉ keys B) (keepLast A).
Proof.
  intros Hr. destruct (compareEmailEntries_lists range A B) as (_ & _ & -> & _).
  rewrite (Hr (keyMap A)), keyMap_to_list.
  induction (keepLast A) as [|e l IH]; [done|].
  rewrite fmap_cons, !filter_cons. simpl.
  case_decide; [|done]. rewrite fmap_cons. simpl. by rewrite IH.
Qed.

End ComparatorFacts.


Section ComparatorClaims.
Import services ComparatorSpec Samples.
Implicit Types (A B l : list EmailEntry) (e : EmailEntry) (k : string).

Lemma rangeForward_ok : range_ok rangeForward.
Proof. by intros m. Qed.

Lemma rangeBackward_ok : range_ok rangeBackward.
Proof. intros m. apply reverse_Permutation. Qed.

Lemma occurrences_cons k e l :
  occurrences k (e :: l)
    = ((if decide (NormalizedEmail e = k) then 1 else 0) + occurrences k l)%nat.
Proof. unfold occurrences. rewrite filter_cons. by case_decide. Qed.

Lemma occurrences_absent k l : k ∉ keys l → occurrences k l = 0%nat.
Proof.
  induction l as [|e l IH]; [done|].
  unfold keys. rewrite fmap_cons, not_elem_of_cons. intros [Hne Hl].
  rewrite occurrences_cons, IH by done. by rewrite decide_False.
Qed.

Lemma occurrences_NoDup k l : NoDup (keys l) → k ∈ keys l → occurrences k l = 1%nat.
Proof.
  induction l as [|e l IH]; [by intros _ ?%elem_of_nil|].
  unfold keys. rewrite fmap_cons, NoDup_cons, elem_of_cons. intros [Hfresh Hnd] Hk.
  rewrite occurrences_cons. case_decide as He.
  - subst k. by rewrite occurrences_absent.
  - destruct Hk as [->|Hk]; [done|]. by rewrite IH.
Qed.

Lemma occurrences_perm k l l' : l ≡ₚ l' → occurrences k l = occurrences k l'.
Proof. intros H. unfold occurrences. by rewrite H. Qed.

(** Filtering on the key keeps all the entries of a key, or none. *)
Lemma occurrences_filter (Q : string → Prop) `{!∀ k, Decision (Q k)} k l :
  occurrences k (filter (λ e, Q (NormalizedEmail e)) l)
    = if decide (Q k) then occurrences k l else 0%nat.
Proof.
  induction l as [|e l IH].
  { by case_decide. }
  rewrite filter_cons.
  destruct (decide (Q (NormalizedEmail e))) as [Hq|Hq].
  - rewrite !occurrences_cons, IH.
    destruct (decide (Q k)); [done|]. rewrite decide_False; [done|congruence].
  - rewrite occurrences_cons, IH.
    destruct (decide (Q k)); [|done]. rewrite decide_False; [done|congruence].
Qed.

Lemma omap_cons_eq {X Y} (f : X → option Y) x (l : list X) :
  omap f (x :: l) = match f x with Some y => y :: omap f l | None => omap f l end.
Proof. reflexivity. Qed.

Lemma occurrences_representatives A B k :
  occurrences k (omap (λ e, lastWithKey (NormalizedEmail e) A) B)
    = if decide (k ∈ keys A) then occurrences k B else 0%nat.
Proof.
  induction B as [|e B IH].
  { by case_decide. }
  rewrite omap_cons_eq.
  destruct (lastWithKey (NormalizedEmail e) A) as [f|] eqn:E.
  - destruct (lastWithKey_Some _ _ _ E) as [Hf _].
    assert (Hin : NormalizedEmail e ∈ keys A) by (apply lastWithKey_is_Some; eauto).
    rewrite !occurrences_cons, IH, Hf.
    destruct (decide (k ∈ keys A)); [done|]. rewrite decide_False; [done|congruence].
  - apply lastWithKey_None in E. rewrite IH, occurrences_cons.
    destruct (decide (k ∈ keys A)); [|done]. rewrite decide_False; [done|congruence].
Qed.

Lemma occurrences_keepLast A k :
  occurrences k (keepLast A) = if decide (k ∈ keys A) then 1%nat else 0%nat.
Proof.
  destruct (decide (k ∈ keys A)) as [Hin|Hout].
  - apply occurrences_NoDup; [apply keepLast_keys_NoDup|by apply keepLast_keys].
  - apply occurrences_absent. by rewrite keepLast_keys.
Qed.

Lemma keys_representatives A B :
  keys (omap (λ e, lastWithKey (NormalizedEmail e) A) B)
    = filter (λ k, k ∈ keys A) (keys B).
Proof.
  induction B as [|e B IH]; [done|].
  rewrite omap_cons_eq. unfold keys in *. rewrite fmap_cons, filter_cons.
  destruct (lastWithKey (NormalizedEmail e) A) as [f|] eqn:E.
  - destruct (lastWithKey_Some _ _ _ E) as [Hf _].
    rewrite decide_True by (apply lastWithKey_is_Some; eauto).
    by rewrite fmap_cons, IH, Hf.
  - apply lastWithKey_None in E. by rewrite decide_False.
Qed.

(** The scenario of two files that share one address. *)
Example compareEmailEntries_scenario :
  let A := [sampleEntry "First File" "a@x.com"; sampleEntry "First File" "b@x.com"] in
  let B := [sampleEntry "Second File" "b@x.com"; sampleEntry "Second File" "c@x.com"] in
  let c := compareEmailEntries rangeForward A B in
  Email <$> matching c = ["b@x.com"] ∧
  Email <$> missingInFirst c = ["c@x.com"] ∧
  Email <$> missingInSecond c = ["a@x.com"] ∧
  TotalEmailsFirstFile (summary c) = 2 ∧
  TotalEmailsSecondFile (summary c) = 2 ∧
  MatchingCount (summary c) = 1.
Proof. by vm_compute. Qed.

(** C1 (counterexample). A key that file B carries twice is emitted twice
    into [matching]. *)
Lemma compareEmailEntries_repeats_matching :
  "a@x.com" ∈ keys firstA ∧ "a@x.com" ∈ keys secondAA ∧
  occurrences "a@x.com" (matching (compareEmailEntries rangeForward firstA secondAA)) = 2%nat ∧
  ¬ (∀ range A B k, range_ok range → k ∈ keys A → k ∈ keys B →
       occurrences k (matching (compareEmailEntries range A B)) = 1%nat).
Proof.
  assert (Ha : "a@x.com" ∈ keys firstA) by (apply (bool_decide_unpack _); by vm_compute).
  assert (Hb : "a@x.com" ∈ keys secondAA) by (apply (bool_decide_unpack _); by vm_compute).
  split; [done|]. split; [done|]. split; [by vm_compute|].
  intros H. specialize (H rangeForward firstA secondAA "a@x.com" rangeForward_ok Ha Hb).
  vm_compute in H. discriminate.
Qed.

(** C1 (amended). For every key [k]: when [k] is in both files, [matching]
    holds it once for each entry of file B that carries it, and the two
    other lists do not hold it; when [k] is only in file A,
    [missingInSecond] holds it exactly once and the others do not; when [k]
    is only in file B, [missingInFirst] holds it once for each entry of
    file B that carries it and the others do not; a key of neither file is
    in none.  So the three lists are pairwise disjoint by key, and each
    count is one when the keys of file B are distinct. *)
Theorem compareEmailEntries_partition range A B k :
  range_ok range →
  let c := compareEmailEntries range A B in
  (k ∈ keys A → k ∈ keys B →
     occurrences k (matching c) = occurrences k B ∧
     occurrences k (missingInFirst c) = 0%nat ∧
     occurrences k (missingInSecond c) = 0%nat) ∧
  (k ∈ keys A → k ∉ keys B →
     occurrences k (missingInSecond c) = 1%nat ∧
     occurrences k (matching c) = 0%nat ∧
     occurrences k (missingInFirst c) = 0%nat) ∧
  (k ∉ keys A → k ∈ keys B →
     occurrences k (missingInFirst c) = occurrences k B ∧
     occurrences k (matching c) = 0%nat ∧
     occurrences k (missingInSecond c) = 0%nat) ∧
  (k ∉ keys A → k ∉ keys B →
     occurrences k (matching c) = 0%nat ∧
     occurrences k (missingInFirst c) = 0%nat ∧
     occurrences k (missingInSecond c) = 0%nat) ∧
  (NoDup (keys B) → k ∈ keys B → occurrences k B = 1%nat).
Proof.
  intros Hr c.
  destruct (compareEmailEntries_lists range A B) as (Hm & Hf & _ & _).
  pose proof (missingInSecond_perm range A B Hr) as Hs.
  assert (Em : occurrences k (matching c)
                 = if decide (k ∈ keys A) then occurrences k B else 0%nat).
  { subst c. rewrite Hm. apply occurrences_representatives. }
  assert (Ef : occurrences k (missingInFirst c)
                 = if decide (k ∉ keys A) then occurrences k B else 0%nat).
  { subst c. rewrite Hf. exact (occurrences_filter (λ k', k' ∉ keys A) k B). }
  assert (Es : occurrences k (missingInSecond c)
                 = if decide (k ∉ keys B)
                   then (if decide (k ∈ keys A) then 1%nat else 0%nat) else 0%nat).
  { subst c. rewrite (occurrences_perm _ _ _ Hs), <- occurrences_keepLast.
    exact (occurrences_filter (λ k', k' ∉ keys B) k (keepLast A)). }
  rewrite Em, Ef, Es. clear Em Ef Es Hm Hf Hs.
  repeat split; intros; repeat case_decide; try done;
    try (by apply occurrences_absent); by apply occurrences_NoDup.
Qed.

Lemma compareEmailEntries_partition_witness :
  occurrences "a@x.com" (matching (compareEmailEntries rangeForward firstA secondAA))
    = occurrences "a@x.com" secondAA.
Proof.
  destruct (compareEmailEntries_partition rangeForward firstA secondAA "a@x.com"
              rangeForward_ok) as (H & _).
  apply H; apply (bool_decide_unpack _); by vm_compute.
Defined.

(** C3 (counterexample). Ranging over the map backwards is one of the
    orders that Go allows; it lists the entries of file A in reverse. *)
Lemma compareEmailEntries_missingInSecond_unordered :
  range_ok rangeBackward ∧
  Email <$> missingInSecond (compareEmailEntries rangeBackward firstAB [])
    = ["b@x.com"; "a@x.com"] ∧
  ¬ (∀ range A B, range_ok range →
       missingInSecond (compareEmailEntries range A B)
         = filter (λ e, NormalizedEmail e ∉ keys B) A).
Proof.
  split; [apply rangeBackward_ok|]. split; [by vm_compute|].
  intros H. specialize (H rangeBackward firstAB [] rangeBackward_ok).
  vm_compute in H. discriminate.
Qed.

(** C3 (amended). [matching] and [missingInFirst] follow the order of file
    B: [missingInFirst] is file B filtered by absence of the key in file A,
    and [matching] lists, for the entries of file B whose key is in file A
    and in their order, the last entry of file A with that key.
    [missingInSecond] holds the entries of file A that are the last of
    their key and whose key is absent from file B, in an order that the
    map iteration decides. *)
Theorem compareEmailEntries_order range A B :
  range_ok range →
  let c := compareEmailEntries range A B in
  matching c = omap (λ e, lastWithKey (NormalizedEmail e) A) B ∧
  keys (matching c) = filter (λ k, k ∈ keys A) (keys B) ∧
  missingInFirst c = filter (λ e, NormalizedEmail e ∉ keys A) B ∧
  missingInSecond c ≡ₚ filter (λ e, NormalizedEmail e ∉ keys B) (keepLast A).
Proof.
  intros Hr c.
  destruct (compareEmailEntries_lists range A B) as (Hm & Hf & _ & _).
  subst c. rewrite Hm, Hf. repeat split.
  - apply keys_representatives.
  - by apply missingInSecond_perm.
Qed.

Lemma compareEmailEntries_order_witness :
  missingInSecond (compareEmailEntries rangeBackward firstAB [])
    ≡ₚ filter (λ e, NormalizedEmail e ∉ keys []) (keepLast firstAB).
Proof.
  destruct (compareEmailEntries_order rangeBackward firstAB [] rangeBackward_ok)
    as (_ & _ & _ & H).
  exact H.
Defined.

End ComparatorClaims.

(* ===================================================================== *)
(** ** The disposable flag                                                *)
(* ===================================================================== *)

Section Disposable.
Import services.

Lemma toEntry_not_disposable source v :
  utils.IsDisposable v = false → IsDisposable (toEntry source v) = false.
Proof. done. Qed.

Lemma validateEmailList_not_disposable sched emails source :
  Forall (λ e, IsDisposable e = false) (validateEmailList sched emails source).
Proof.
  unfold validateEmailList.
  assert (Hv : Forall (λ iv : nat * utils.EmailValidationResult,
                         utils.IsDisposable iv.2 = false)
                 (imap (λ i v, (i, v)) (utils.ValidateEmailsBatch sched emails))).
  { apply Forall_forall. intros iv (i & v & -> & Hi)%elem_of_lookup_imap. simpl.
    pose proof (worker_steps_not_disposable emails sched
                  (replicate (length emails) utils.zeroResult)) as Hall.
    eapply Forall_lookup_1 in Hall; [exact Hall| |exact Hi].
    by apply Forall_replicate. }
  revert Hv. generalize (imap (λ i v, (i, v)) (utils.ValidateEmailsBatch sched emails)).
  assert (Hz : Forall (λ e, IsDisposable e = false)
                 (replicate (length emails) zeroEntry)) by by apply Forall_replicate.
  revert Hz. generalize (replicate (length emails) zeroEntry).
  intros result Hz l; revert result Hz.
  induction l as [|iv l IH]; intros result Hz Hl; simpl; [done|].
  inversion Hl; subst. apply IH; [|done].
  apply Forall_insert; [done|]. by apply toEntry_not_disposable.
Qed.

(** C10. No entry that [ValidateEmailDetailed], [ValidateEmailsBatch] or
    [validateEmailList] produces is flagged disposable, and the summary of
    [compareEmailEntries] counts no disposable address, for every input,
    every run of the pool and every iteration order of the map. *)
Theorem disposable_flag_never_set :
  (∀ x, utils.IsDisposable (utils.ValidateEmailDetailed x) = false) ∧
  (∀ sched emails,
     Forall (λ r, utils.IsDisposable r = false) (utils.ValidateEmailsBatch sched emails)) ∧
  (∀ sched emails source,
     Forall (λ e, IsDisposable e = false) (validateEmailList sched emails source)) ∧
  (∀ range A B,
     DisposableEmailsCount (summary (compareEmailEntries range A B)) = 0).
Proof.
  split; [apply ValidateEmailDetailed_not_disposable|].
  split.
  { intros sched emails. apply worker_steps_not_disposable. by apply Forall_replicate. }
  split; [apply validateEmailList_not_disposable|].
  intros range A B. by destruct (compareEmailEntries_lists range A B) as (_ & _ & _ & ?).
Qed.

(** An address of a listed domain is classified like any other. *)
Example disposable_domain_not_flagged :
  utils.isDisposableDomain "Mailinator.com" = true ∧
  utils.IsDisposable (utils.ValidateEmailDetailed "x@mailinator.com") = false ∧
  utils.IsValid (utils.ValidateEmailDetailed "x@mailinator.com") = true.
Proof. by vm_compute. Qed.

End Disposable.

(* ===================================================================== *)
(** ** The report writers                                                 *)
(* ===================================================================== *)

Section Reports.
Import services Samples.

Lemma foldl_snoc_map {X Y} (f : X → Y) (w : list Y) (l : list X) :
  foldl (λ w x, w ++ [f x]) w l = w ++ (f <$> l).
Proof.
  revert w; induction l as [|x l IH]; intros w; simpl.
  - by rewrite app_nil_r.
  - by rewrite IH, <- app_assoc.
Qed.

(** The delimited-text writer: after the header, one six-field record per
    entry, the reason being the sixth field. *)
Lemma generateEnhancedCSVOutput_rows matching missingInFirst missingInSecond summary :
  generateEnhancedCSVOutput matching missingInFirst missingInSecond summary
    = [csvHeader]
      ++ (csvRow "Both" "Matching" <$> matching)
      ++ (csvRow "Second File Only" "Missing in First File" <$> missingInFirst)
      ++ (csvRow "First File Only" "Missing in Second File" <$> missingInSecond)
      ++ [[""]; ["Summary"]; ["Metric"; "Value"]]
      ++ ((λ row, [row.1; fmtInt row.2]) <$> summaryData summary).
Proof.
  unfold generateEnhancedCSVOutput. cbv zeta.
  rewrite !foldl_snoc_map. by rewrite <- !app_assoc.
Qed.

Lemma csvRow_shape source status entry :
  length (csvRow source status entry) = length csvHeader ∧
  csvRow source status entry !! 5%nat = Some (Reason entry) ∧
  csvHeader !! 5%nat = Some "Reason".
Proof. done. Qed.


(** C7 (the defect). For the report of one matching entry with a reason,
    the delimited-text writer puts the reason in the sixth field, under the
    header "Reason"; the spreadsheet writer writes the header "Reason" to
    F1 but the reason of the entry to I2, and leaves F2 empty. *)
Theorem excel_reason_in_column_I :
  generateEnhancedCSVOutput [invalidBoth] [] [] reportSummary !! 0%nat
    = Some ["Email"; "Normalized Email"; "Source"; "Status"; "Valid"; "Reason"] ∧
  generateEnhancedCSVOutput [invalidBoth] [] [] reportSummary !! 1%nat
    = Some ["a@b@c"; "a@b@c"; "Both"; "Matching"; "No";
            "Email must contain exactly one @ symbol"] ∧
  let f := generateEnhancedExcelOutput [invalidBoth] [] [] reportSummary in
  cells f !! (resultsSheet, "F1") = Some (CellStr "Reason") ∧
  cells f !! (resultsSheet, "E2") = Some (CellStr "No") ∧
  cells f !! (resultsSheet, "F2") = None ∧
  cells f !! (resultsSheet, "I1") = None ∧
  cells f !! (resultsSheet, "I2")
    = Some (CellStr "Email must contain exactly one @ symbol").
Proof. by vm_compute. Qed.

(** *** Column F of the spreadsheet, in every report *)








End Reports.

(* ===================================================================== *)
(** ** Further properties of the normalizer and the validator             *)
(* ===================================================================== *)

Section ValidatorMore.
Import GoStrings utils NormalizerSpec.



Lemma NormalizeEmail_of_trimmed x : NormalizeEmail (TrimSpace x) = NormalizeEmail x.
Proof. unfold NormalizeEmail. cbv zeta. by rewrite TrimSpace_idemp. Qed.



(** X2. The entry that [ValidateEmailDetailed] builds carries the key of
    its argument, [NormalizeEmail x] (the code normalizes the trimmed
    address, which gives the same key), and the whole entry depends on the
    trimmed address only. *)
Theorem ValidateEmailDetailed_key_and_trim x :
  NormalizedEmail (ValidateEmailDetailed x) = NormalizeEmail x ∧
  ValidateEmailDetailed (TrimSpace x) = ValidateEmailDetailed x.
Proof.
  split.
  - rewrite ValidateEmailDetailed_NormalizedEmail. apply NormalizeEmail_of_trimmed.
  - unfold ValidateEmailDetailed. cbv zeta. by rewrite TrimSpace_idemp.
Qed.

(** *** The gmail.com rule *)











End ValidatorMore.

(* ===================================================================== *)
(** ** Further properties of the validation of a file                     *)
(* ===================================================================== *)

Section ValidateListMore.
Import GoStrings utils services ExtraSpec.

(** Writing the pairs of [imap] into a slice of zero values fills it in
    order. *)
Lemma fill_by_index {X Y} (f : X → Y) (z : Y) (vs : list X) (k : nat) :
  foldl (λ result (iv : nat * X), <[iv.1 := f iv.2]> result)
        (replicate (length vs + k) z) (imap (λ i v, (i, v)) vs)
    = (f <$> vs) ++ replicate k z.
Proof.
  revert k; induction vs as [|v vs IH] using rev_ind; intros k; [done|].
  rewrite imap_app, foldl_app, length_app. simpl.
  replace (length vs + 1 + k)%nat with (length vs + S k)%nat by lia.
  rewrite IH, Nat.add_0_r, fmap_app. simpl.
  rewrite <- (length_fmap f vs) at 1.
  rewrite insert_app_r_alt, Nat.sub_diag by lia. simpl.
  by rewrite <- app_assoc.
Qed.

Lemma inOrder_schedule emails :
  schedule_of (workerCount emails) emails (inOrder emails).
Proof.
  unfold schedule_of, inOrder. split.
  - rewrite <- list_fmap_compose. by rewrite list_fmap_id.
  - apply Forall_fmap, Forall_forall. intros i Hi%elem_of_seq. simpl.
    unfold workerCount, min. case_match; lia.
Qed.

Lemma validateEmailList_eq sched emails source :
  sched.*2 ≡ₚ seq 0 (length emails) →
  validateEmailList sched emails source
    = (λ x, toEntry source (ValidateEmailDetailed x)) <$> emails.
Proof.
  intros Hp. unfold validateEmailList. cbv zeta.
  rewrite (ValidateEmailsBatch_is_map _ _ Hp).
  pose proof (fill_by_index (toEntry source) zeroEntry
                (ValidateEmailDetailed <$> emails) 0) as Hfill.
  rewrite length_fmap, Nat.add_0_r, app_nil_r in Hfill.
  rewrite Hfill. by rewrite <- list_fmap_compose.
Qed.

(** X4. For every run of the worker pool, [validateEmailList] returns one
    entry per address, in the order of the addresses: the classification
    of the address, tagged with [source], with the status "Valid" exactly
    when the address is valid.  The list has the length of the input. *)
Theorem validateEmailList_is_map workers sched emails source :
  schedule_of workers emails sched →
  validateEmailList sched emails source
    = (λ x, toEntry source (ValidateEmailDetailed x)) <$> emails ∧
  length (validateEmailList sched emails source) = length emails ∧
  Forall (λ e, Source e = source ∧ (Status e = "Valid" ↔ IsValid e = true))
         (validateEmailList sched emails source).
Proof.
  intros [Hp _].
  assert (Heq : validateEmailList sched emails source
                  = (λ x, toEntry source (ValidateEmailDetailed x)) <$> emails).
  { by apply validateEmailList_eq. }
  rewrite Heq. split; [done|]. split; [by rewrite length_fmap|].
  apply Forall_fmap, Forall_forall. intros x _. simpl. split; [done|].
  by destruct (utils.IsValid (ValidateEmailDetailed x)).
Qed.

Lemma validateEmailList_is_map_witness :
  validateEmailList (inOrder [" a@b "; "x"]) [" a@b "; "x"] "First File"
    = (λ x, toEntry "First File" (ValidateEmailDetailed x)) <$> [" a@b "; "x"].
Proof.
  destruct (validateEmailList_is_map _ _ _ "First File"
              (inOrder_schedule [" a@b "; "x"])) as [H _].
  exact H.
Defined.

End ValidateListMore.

(* ===================================================================== *)
(** ** Further properties of the extraction                               *)
(* ===================================================================== *)

Section ExtractorMore.
Import GoStrings GoIO utils services ExtraSpec.

(** The verdict, read off the code once more for use below. *)
Lemma ValidateEmailDetailed_IsValid x :
  utils.IsValid (ValidateEmailDetailed x) = true ↔
  TrimSpace x ≠ "" ∧ count (TrimSpace x) "@" = 1%nat.
Proof.
  unfold ValidateEmailDetailed. cbv zeta.
  pose proof (Split_length (TrimSpace x) "@") as Hlen.
  case_bool_decide as He; simpl.
  - split; [done|]. by intros [? _].
  - case_bool_decide as Hp; simpl.
    + split; [done|]. intros [_ Hc]. lia.
    + split; [|done]. intros _. split; [done|]. lia.
Qed.

Lemma candidate_firstColumn record emails :
  candidate record emails = emails ++ option_list (firstColumn record).
Proof.
  unfold candidate, firstColumn. destruct record as [|r0 rest]; simpl.
  { by rewrite app_nil_r. }
  case_bool_decide; simpl; [|by rewrite app_nil_r].
  destruct (Contains r0 "@"); simpl; [done|by rewrite app_nil_r].
Qed.

Lemma firstColumn_Some row x :
  firstColumn row = Some x → x ≠ "" ∧ Contains x "@" = true.
Proof.
  unfold firstColumn. destruct row as [|r0 rest]; [done|].
  case_bool_decide; simpl; [|done].
  destruct (Contains r0 "@") eqn:E; [|done]. by intros [= <-].
Qed.

(** The read loop on records that all have the expected number of fields. *)
Lemma readLoop_well_formed fuel r emails rows :
  0 < FieldsPerRecord r →
  pending r = Fields <$> rows →
  Forall (λ row, Z.of_nat (length row) = FieldsPerRecord r) rows →
  (length rows < fuel)%nat →
  readLoop fuel r emails = Some (emails ++ omap firstColumn rows, None).
Proof.
  revert r emails rows; induction fuel as [|fuel IH];
    intros r emails rows Hpos Hp Hall Hlen; [lia|].
  destruct rows as [|row rows].
  - simpl. unfold Read. rewrite Hp. simpl. by rewrite app_nil_r.
  - simpl in Hp. inversion Hall as [|? ? Hrow Hrows]; subst.
    destruct (Read_Fields r row (Fields <$> rows) Hp) as (err & n & HR & _ & Hn).
    destruct (Hn Hpos) as [-> _].
    assert (err = None) as ->.
    { unfold Read in HR. rewrite Hp in HR.
      rewrite (proj2 (Z.ltb_lt _ _) Hpos) in HR.
      rewrite bool_decide_eq_false_2 in HR by (intros ?; done).
      by injection HR as <-. }
    rewrite omap_cons_eq. cbn [readLoop]. rewrite HR.
    rewrite (IH _ _ rows); simpl; try done; [|simpl in Hlen; lia].
    rewrite candidate_firstColumn.
    by destruct (firstColumn row); simpl; rewrite <- app_assoc.
Qed.

(** X5. On a CSV file whose records all have as many fields as the header,
    [extractEmailsFromCSV] returns, without error and in the order of the
    file, the first field of every record after the header that is not
    empty and holds an '@'; the header is never looked at. *)
Theorem extractEmailsFromCSV_well_formed fs path f header rows :
  fs path = Some f →
  asCSV f = Fields header :: (Fields <$> rows) →
  header ≠ [] →
  Forall (λ row, length row = length header) rows →
  extractEmailsFromCSV fs path = Some (omap firstColumn rows, None).
Proof.
  intros Hf Hcsv Hh Hall. unfold extractEmailsFromCSV. rewrite Hf, Hcsv.
  assert (Hread : Read (NewReader (Fields header :: (Fields <$> rows))) =
    (header, None, {| pending := Fields <$> rows;
                      FieldsPerRecord := Z.of_nat (length header) |}))
    by reflexivity.
  rewrite Hread.
  rewrite (readLoop_well_formed _ _ [] rows); simpl; try done.
  - destruct header; [done|simpl; lia].
  - eapply Forall_impl; [exact Hall|]. simpl. intros row ->. done.
  - rewrite length_fmap. lia.
Qed.

Lemma extractEmailsFromCSV_well_formed_witness :
  extractEmailsFromCSV
    (λ _, Some {| asCSV := Fields ["Email"; "Name"]
                    :: (Fields <$> [["a@x.com"; "A"]; ["zzz"; "B"]; [""; "C"]; ["b@x.com"; "D"]]);
                  asXLSX := None |}) "a.csv"
    = Some (["a@x.com"; "b@x.com"], None).
Proof.
  eapply (extractEmailsFromCSV_well_formed _ "a.csv" _ ["Email"; "Name"]
           [["a@x.com"; "A"]; ["zzz"; "B"]; [""; "C"]; ["b@x.com"; "D"]]).
  - reflexivity.
  - reflexivity.
  - discriminate.
  - repeat constructor.
Defined.

Lemma rowsLoop_readable rows emails :
  rowsLoop (Some <$> rows) emails = (emails ++ omap firstColumn rows, None).
Proof.
  revert emails; induction rows as [|row rows IH]; intros emails.
  { simpl. by rewrite app_nil_r. }
  rewrite omap_cons_eq, fmap_cons. cbn [rowsLoop].
  rewrite IH, candidate_firstColumn.
  by destruct (firstColumn row); simpl; rewrite <- app_assoc.
Qed.

(** X6. On a workbook whose first sheet can be read row by row,
    [extractEmailsFromExcel] skips the first row and returns, without
    error and in order, the first cell of every later row that is not
    empty and holds an '@'.  A first sheet without any row gives the empty
    list and no error, where a CSV file without any record gives an
    error. *)
Theorem extractEmailsFromExcel_readable fs path file f sheet0 others rows :
  fs path = Some file → asXLSX file = Some f →
  GetSheetList f = sheet0 :: others →
  Rows f sheet0 = Some (Some <$> rows) →
  extractEmailsFromExcel fs path = (omap firstColumn (tail rows), None) ∧
  (rows = [] → extractEmailsFromExcel fs path = ([], None)) ∧
  (asCSV file = [] → extractEmailsFromCSV fs path = Some ([], Some EOF)).
Proof.
  intros Hf Hx Hs Hr.
  assert (He : extractEmailsFromExcel fs path = (omap firstColumn (tail rows), None)).
  { unfold extractEmailsFromExcel. rewrite Hf, Hx, Hs, Hr.
    destruct rows as [|row rows]; simpl; [done|]. apply rowsLoop_readable. }
  split; [done|]. split.
  - intros ->. by rewrite He.
  - intros Hc. unfold extractEmailsFromCSV. by rewrite Hf, Hc.
Qed.

Lemma extractEmailsFromExcel_readable_witness :
  extractEmailsFromExcel
    (λ _, Some {| asCSV := [];
                  asXLSX := Some {| GetSheetList := ["Sheet1"];
                                    Rows := λ _, Some (Some <$> [["Email"]; ["a@x.com"]; ["n/a"]]) |} |})
    "a.xlsx" = (["a@x.com"], None).
Proof.
  eapply (extractEmailsFromExcel_readable _ "a.xlsx" _ _ "Sheet1" []
            [["Email"]; ["a@x.com"]; ["n/a"]]); reflexivity.
Defined.

Lemma extractEmails_total_helper fs path : is_Some (extractEmails fs path).
Proof.
  unfold extractEmails. cbv zeta.
  case_bool_decide; [|by repeat case_match].
  destruct (extractEmailsFromCSV_total fs path) as [[out [e|]] ->]; by eexists.
Qed.

(** *** What the extraction hands to the validator *)

Lemma readLoop_candidates (P : string → Prop) fuel r emails out :
  (∀ row x, firstColumn row = Some x → P x) →
  Forall P emails →
  readLoop fuel r emails = Some (out, None) → Forall P out.
Proof.
  intros HP. revert r emails; induction fuel as [|fuel IH]; intros r emails Hall; simpl; [done|].
  destruct (Read r) as [[record err] r'].
  destruct err as [e|].
  - destruct e; intros [=]; by subst.
  - apply IH. rewrite candidate_firstColumn. apply Forall_app. split; [done|].
    destruct (firstColumn record) eqn:E; simpl; [|done].
    repeat constructor. by eapply HP.
Qed.

Lemma rowsLoop_candidates (P : string → Prop) rows emails out :
  (∀ row x, firstColumn row = Some x → P x) →
  Forall P emails →
  rowsLoop rows emails = (out, None) → Forall P out.
Proof.
  intros HP. revert emails; induction rows as [|[row|] rows IH]; intros emails Hall; simpl.
  - by intros [= <-].
  - apply IH. rewrite candidate_firstColumn. apply Forall_app. split; [done|].
    destruct (firstColumn row) eqn:E; simpl; [|done].
    repeat constructor. by eapply HP.
  - done.
Qed.

Lemma extractEmails_candidates (P : string → Prop) fs path emails :
  (∀ row x, firstColumn row = Some x → P x) →
  extractEmails fs path = Some (emails, None) → Forall P emails.
Proof.
  intros HP. unfold extractEmails. cbv zeta.
  case_bool_decide; [|case_bool_decide].
  - destruct (extractEmailsFromCSV fs path) as [[out [e|]]|] eqn:E; [done| |done].
    intros [= <-]. unfold extractEmailsFromCSV in E.
    destruct (fs path) as [f|]; [|done].
    destruct (Read (NewReader (asCSV f))) as [[record err] r'].
    destruct err; [done|]. by eapply readLoop_candidates.
  - destruct (extractEmailsFromExcel fs path) as [out [e|]] eqn:E; [done|].
    intros [= <-]. unfold extractEmailsFromExcel in E.
    destruct (fs path) as [file|]; [|done].
    destruct (asXLSX file) as [f|]; [|done].
    destruct (GetSheetList f) as [|sheet0 ?]; [done|].
    destruct (Rows f sheet0) as [[|[hd|] rest]|]; try done.
    + by injection E as <-.
    + by eapply rowsLoop_candidates.
  - done.
Qed.

Lemma count_TrimLeft_nonspace s c :
  isSpace c = false → count (TrimLeft s) c = count s c.
Proof.
  intros Hc. induction s as [|d s IH]; simpl; [done|].
  destruct (isSpace d) eqn:Hd; [|done].
  rewrite IH. destruct (Ascii.eqb d c) eqn:E; [|done].
  apply Ascii.eqb_eq in E. congruence.
Qed.

Lemma count_TrimRight_nonspace s c :
  isSpace c = false → count (TrimRight s) c = count s c.
Proof.
  intros Hc. induction s as [|d s IH]; simpl; [done|].
  destruct (TrimRight s) as [|e t] eqn:Ht.
  - simpl in IH. rewrite <- IH.
    destruct (isSpace d) eqn:Hd; simpl; [|lia].
    destruct (Ascii.eqb d c) eqn:E; [|done].
    apply Ascii.eqb_eq in E. congruence.
  - simpl in *. by rewrite IH.
Qed.

Lemma count_TrimSpace_at s : count (TrimSpace s) "@" = count s "@".
Proof.
  unfold TrimSpace. by rewrite count_TrimRight_nonspace, count_TrimLeft_nonspace.
Qed.

Lemma Contains_count s c : Contains s c = true ↔ (0 < count s c)%nat.
Proof.
  unfold Contains. rewrite Z.leb_le. split.
  - intros H. destruct (count s c) eqn:E; [|lia].
    rewrite (Index_free _ _ E) in H. lia.
  - apply Index_found.
Qed.

(** X7. Every address that [extractEmails] returns is not empty and holds
    an '@'; so the validator never finds it empty, and declares it valid
    exactly when it holds one '@' (white space around it does not count). *)
Theorem extracted_addresses_validity fs path emails :
  extractEmails fs path = Some (emails, None) →
  Forall (λ x, x ≠ "" ∧ Contains x "@" = true ∧
               utils.Reason (ValidateEmailDetailed x) ≠ "Email cannot be empty" ∧
               (utils.IsValid (ValidateEmailDetailed x) = true ↔ count x "@" = 1%nat))
         emails.
Proof.
  apply extractEmails_candidates. intros row x [Hne Hat]%firstColumn_Some.
  split; [done|]. split; [done|].
  apply Contains_count in Hat. rewrite <- count_TrimSpace_at in Hat.
  assert (Htrim : TrimSpace x ≠ "").
  { intros He. rewrite He in Hat. simpl in Hat. lia. }
  split.
  - unfold ValidateEmailDetailed. cbv zeta.
    rewrite bool_decide_eq_false_2 by done. by case_bool_decide.
  - rewrite ValidateEmailDetailed_IsValid, count_TrimSpace_at. by split; [intros [_ ?]|].
Qed.

Lemma extracted_addresses_validity_witness :
  Forall (λ x, x ≠ "" ∧ Contains x "@" = true ∧
               utils.Reason (ValidateEmailDetailed x) ≠ "Email cannot be empty" ∧
               (utils.IsValid (ValidateEmailDetailed x) = true ↔ count x "@" = 1%nat))
         ["a@x.com"; " B@x.com"].
Proof.
  apply (extracted_addresses_validity ExtraSamples.sampleFiles "./temp/a.csv").
  reflexivity.
Defined.

End ExtractorMore.

(* ===================================================================== *)
(** ** Further properties of the comparator                               *)
(* ===================================================================== *)

Section ComparatorMore.
Import services ComparatorSpec ExtraSpec Samples.
Implicit Types (A B l : list EmailEntry) (e : EmailEntry) (k : string).

Lemma countValid_cons e l :
  countValid (e :: l) = (if IsValid e then 1 else 0) + countValid l.
Proof.
  unfold countValid. rewrite filter_cons.
  destruct (IsValid e).
  - rewrite decide_True by done. simpl length. lia.
  - rewrite decide_False by done. lia.
Qed.

Lemma countValid_bounds l : 0 ≤ countValid l ≤ Z.of_nat (length l).
Proof. unfold countValid. pose proof (length_filter (λ e, IsValid e = true) l). lia. Qed.

Lemma firstPass_fields s (m : gmap string EmailEntry) l :
  let s' := (foldl firstPass (s, m) l).1 in
  TotalEmailsFirstFile s' = TotalEmailsFirstFile s ∧
  TotalEmailsSecondFile s' = TotalEmailsSecondFile s ∧
  ValidEmailsFirstFile s' = ValidEmailsFirstFile s + countValid l ∧
  ValidEmailsSecondFile s' = ValidEmailsSecondFile s ∧
  ProcessingTimeSeconds s' = ProcessingTimeSeconds s.
Proof.
  revert s m; induction l as [|a l IH]; intros s m; cbv zeta.
  { cbn. unfold countValid. simpl. repeat split; lia. }
  cbn [foldl].
  specialize (IH (firstPass (s, m) a).1 (firstPass (s, m) a).2). cbv zeta in IH.
  rewrite <- surjective_pairing in IH.
  destruct IH as (E1 & E2 & E3 & E4 & E5). rewrite E1, E2, E3, E4, E5.
  rewrite countValid_cons. unfold firstPass. cbn [fst snd].
  destruct (IsValid a); simpl; repeat split; lia.
Qed.

Lemma secondPass_fields fm st l :
  let s' := ss_summary (foldl (secondPass fm) st l) in
  TotalEmailsFirstFile s' = TotalEmailsFirstFile (ss_summary st) ∧
  TotalEmailsSecondFile s' = TotalEmailsSecondFile (ss_summary st) ∧
  ValidEmailsFirstFile s' = ValidEmailsFirstFile (ss_summary st) ∧
  ValidEmailsSecondFile s' = ValidEmailsSecondFile (ss_summary st) + countValid l ∧
  ProcessingTimeSeconds s' = ProcessingTimeSeconds (ss_summary st).
Proof.
  revert st; induction l as [|a l IH]; intros st; cbv zeta.
  { cbn. unfold countValid. simpl. repeat split; lia. }
  cbn [foldl].
  specialize (IH (secondPass fm st a)). cbv zeta in IH.
  destruct IH as (E1 & E2 & E3 & E4 & E5). rewrite E1, E2, E3, E4, E5.
  rewrite countValid_cons. unfold secondPass.
  destruct (fm !! NormalizedEmail a); destruct (IsValid a); simpl; repeat split; lia.
Qed.

Lemma split_by_presence A B :
  (length (omap (λ e, lastWithKey (NormalizedEmail e) A) B)
   + length (filter (λ e, NormalizedEmail e ∉ keys A) B))%nat = length B.
Proof.
  induction B as [|e B IH]; [done|].
  rewrite omap_cons_eq, filter_cons.
  destruct (lastWithKey (NormalizedEmail e) A) eqn:E.
  - rewrite decide_False; [simpl; lia|].
    intros Hn. apply lastWithKey_None in Hn. congruence.
  - rewrite decide_True by (by apply lastWithKey_None). simpl. lia.
Qed.

Lemma compareEmailEntries_summary_fields range A B :
  let c := compareEmailEntries range A B in
  MatchingCount (summary c) = Z.of_nat (length (matching c)) ∧
  MissingInFirstCount (summary c) = Z.of_nat (length (missingInFirst c)) ∧
  MissingInSecondCount (summary c) = Z.of_nat (length (missingInSecond c)) ∧
  TotalEmailsFirstFile (summary c) = Z.of_nat (length A) ∧
  TotalEmailsSecondFile (summary c) = Z.of_nat (length B) ∧
  ValidEmailsFirstFile (summary c) = countValid A ∧
  ValidEmailsSecondFile (summary c) = countValid B ∧
  ProcessingTimeSeconds (summary c) = 0%Q.
Proof.
  intros c. subst c. unfold compareEmailEntries.
  match goal with |- context [foldl firstPass (?s, ∅) A] =>
    pose proof (firstPass_fields s ∅ A) as H1;
    destruct (foldl firstPass (s, ∅) A) as [s1 fm] end.
  match goal with |- context [foldl (secondPass fm) ?st B] =>
    pose proof (secondPass_fields fm st B) as H2 end.
  cbn in H1, H2. cbn.
  destruct H1 as (H1a & H1b & H1c & H1d & H1e).
  destruct H2 as (H2a & H2b & H2c & H2d & H2e).
  repeat split; try done; try congruence; lia.
Qed.

Lemma matching_and_missing_lengths range A B :
  let c := compareEmailEntries range A B in
  (length (matching c) + length (missingInFirst c))%nat = length B.
Proof.
  intros c.
  destruct (compareEmailEntries_lists range A B) as (Hm & Hf & _ & _).
  fold c in Hm, Hf. rewrite Hm, Hf. apply split_by_presence.
Qed.

(** X8. The summary of a comparison: the totals are the lengths of the two
    inputs, the valid counts are the numbers of valid entries of each, the
    three other counts are the lengths of the three lists, the time is
    left at zero; and every entry of the second file is counted once, as
    matching or as missing in the first file. *)
Theorem compareEmailEntries_summary range A B :
  let c := compareEmailEntries range A B in
  TotalEmailsFirstFile (summary c) = Z.of_nat (length A) ∧
  TotalEmailsSecondFile (summary c) = Z.of_nat (length B) ∧
  ValidEmailsFirstFile (summary c) = countValid A ∧
  ValidEmailsSecondFile (summary c) = countValid B ∧
  MatchingCount (summary c) = Z.of_nat (length (matching c)) ∧
  MissingInFirstCount (summary c) = Z.of_nat (length (missingInFirst c)) ∧
  MissingInSecondCount (summary c) = Z.of_nat (length (missingInSecond c)) ∧
  MatchingCount (summary c) + MissingInFirstCount (summary c)
    = TotalEmailsSecondFile (summary c) ∧
  ProcessingTimeSeconds (summary c) = 0%Q.
Proof.
  intros c.
  destruct (compareEmailEntries_summary_fields range A B)
    as (H1 & H2 & H3 & H4 & H5 & H6 & H7 & H8).
  pose proof (matching_and_missing_lengths range A B) as Hlen. cbv zeta in Hlen.
  fold c in H1, H2, H3, H4, H5, H6, H7, H8, Hlen.
  repeat split; try done.
  rewrite H1, H2, H5. lia.
Qed.

Lemma compareEmailEntries_members range A B e :
  range_ok range →
  let c := compareEmailEntries range A B in
  (e ∈ matching c → e ∈ A) ∧
  (e ∈ missingInFirst c → e ∈ B) ∧
  (e ∈ missingInSecond c → e ∈ A).
Proof.
  intros Hr c.
  destruct (compareEmailEntries_lists range A B) as (Hm & Hf & _ & _).
  pose proof (missingInSecond_perm range A B Hr) as Hs.
  fold c in Hm, Hf, Hs. rewrite Hm, Hf, Hs.
  split; [|split]; intros H.
  - apply list_elem_of_omap in H as (b & Hb & Hl).
    by apply lastWithKey_Some in Hl as [_ ?].
  - by apply list_elem_of_filter in H as [_ ?].
  - apply list_elem_of_filter in H as [_ H].
    apply keepLast_elem in H. by apply lastWithKey_Some in H as [_ ?].
Qed.

(** X9. Where the entries of the three lists come from: a matching entry
    is an entry of the first file whose key is in the second; an entry
    missing in the first file is an entry of the second file whose key is
    not in the first; an entry missing in the second file is an entry of
    the first file whose key is not in the second. *)
Theorem compareEmailEntries_provenance range A B e :
  range_ok range →
  let c := compareEmailEntries range A B in
  (e ∈ matching c → e ∈ A ∧ NormalizedEmail e ∈ keys B) ∧
  (e ∈ missingInFirst c → e ∈ B ∧ NormalizedEmail e ∉ keys A) ∧
  (e ∈ missingInSecond c → e ∈ A ∧ NormalizedEmail e ∉ keys B).
Proof.
  intros Hr c.
  destruct (compareEmailEntries_members range A B e Hr) as (Ha & Hb & Hc).
  destruct (compareEmailEntries_lists range A B) as (Hm & Hf & _ & _).
  pose proof (missingInSecond_perm range A B Hr) as Hs.
  fold c in Ha, Hb, Hc, Hm, Hf, Hs.
  split; [|split]; intros H; (split; [by auto|]).
  - rewrite Hm in H. apply list_elem_of_omap in H as (b & Hin & Hl).
    apply lastWithKey_Some in Hl as [-> _].
    unfold keys. apply list_elem_of_fmap. by exists b.
  - rewrite Hf in H. by apply list_elem_of_filter in H as [? _].
  - rewrite Hs in H. by apply list_elem_of_filter in H as [? _].
Qed.

Lemma compareEmailEntries_provenance_witness :
  range_ok rangeForward ∧
  sampleEntry "First File" "a@x.com"
    ∈ matching (compareEmailEntries rangeForward firstA secondAA) ∧
  sampleEntry "First File" "a@x.com" ∈ firstA ∧
  NormalizedEmail (sampleEntry "First File" "a@x.com") ∈ keys secondAA.
Proof.
  assert (Hin : sampleEntry "First File" "a@x.com"
                  ∈ matching (compareEmailEntries rangeForward firstA secondAA)).
  { vm_compute. repeat constructor. }
  destruct (compareEmailEntries_provenance rangeForward firstA secondAA
              (sampleEntry "First File" "a@x.com") rangeForward_ok) as (H & _).
  split; [exact rangeForward_ok|]. split; [exact Hin|]. exact (H Hin).
Defined.

Lemma same_key_same_entry l e e' :
  NoDup (keys l) → e ∈ l → e' ∈ l → NormalizedEmail e = NormalizedEmail e' → e = e'.
Proof.
  induction l as [|a l IH]; [by intros _ ?%elem_of_nil|].
  unfold keys. rewrite fmap_cons, NoDup_cons. intros [Hfresh Hnd].
  rewrite !elem_of_cons. intros [->|He] [->|He'] Hk; try done.
  - destruct Hfresh. rewrite Hk. apply list_elem_of_fmap. by exists e'.
  - destruct Hfresh. rewrite <- Hk. apply list_elem_of_fmap. by exists e.
  - by apply IH.
Qed.

Lemma omap_id_on l (f : EmailEntry → option EmailEntry) :
  (∀ e, e ∈ l → f e = Some e) → omap f l = l.
Proof.
  induction l as [|a l IH]; intros H; [done|].
  rewrite omap_cons_eq, H by left. rewrite IH; [done|].
  intros e He. apply H. by right.
Qed.

(** X10. Comparing a list with itself finds nothing missing on either
    side and emits one matching entry per entry; when the keys of the list
    are distinct, [matching] is the list itself. *)
Theorem compareEmailEntries_same_list range A :
  range_ok range →
  let c := compareEmailEntries range A A in
  missingInFirst c = [] ∧ missingInSecond c = [] ∧
  length (matching c) = length A ∧
  (NoDup (keys A) → matching c = A).
Proof.
  intros Hr c.
  destruct (compareEmailEntries_lists range A A) as (Hm & Hf & _ & _).
  pose proof (missingInSecond_perm range A A Hr) as Hs.
  pose proof (split_by_presence A A) as Hlen.
  fold c in Hm, Hf, Hs.
  assert (Hnone : ∀ l, filter (λ e, NormalizedEmail e ∉ keys A) l = [] ∨
                       ∃ e, e ∈ l ∧ NormalizedEmail e ∉ keys A).
  { intros l. destruct (filter _ l) as [|e ?] eqn:E; [by left|]. right. exists e.
    assert (He : e ∈ filter (λ e, NormalizedEmail e ∉ keys A) l) by (rewrite E; left).
    apply list_elem_of_filter in He as [? ?]. done. }
  assert (Hf0 : filter (λ e, NormalizedEmail e ∉ keys A) A = []).
  { destruct (Hnone A) as [?|(e & He & Hn)]; [done|].
    destruct Hn. unfold keys. apply list_elem_of_fmap. by exists e. }
  assert (Hs0 : filter (λ e, NormalizedEmail e ∉ keys A) (keepLast A) = []).
  { destruct (Hnone (keepLast A)) as [?|(e & He & Hn)]; [done|].
    destruct Hn. apply keepLast_keys. unfold keys. apply list_elem_of_fmap. by exists e. }
  rewrite Hs0 in Hs. apply Permutation_nil_r in Hs.
  rewrite Hf0 in Hlen. simpl in Hlen.
  repeat split; try congruence.
  - rewrite Hm. lia.
  - intros Hnd. rewrite Hm. apply omap_id_on. intros e He.
    assert (Hsome : is_Some (lastWithKey (NormalizedEmail e) A)).
    { apply lastWithKey_is_Some. unfold keys. apply list_elem_of_fmap. by exists e. }
    destruct Hsome as [x Hx]. rewrite Hx. f_equal.
    destruct (lastWithKey_Some _ _ _ Hx) as [Hk Hin].
    by apply (same_key_same_entry A).
Qed.

Lemma compareEmailEntries_same_list_witness :
  missingInSecond (compareEmailEntries rangeBackward firstAB firstAB) = [].
Proof.
  destruct (compareEmailEntries_same_list rangeBackward firstAB rangeBackward_ok)
    as (_ & H & _).
  exact H.
Defined.

End ComparatorMore.

(* ===================================================================== *)
(** ** Further properties of the cache                                    *)
(* ===================================================================== *)

Section CacheMore.
Import utils domain_check.
Context {V : Type}.
Implicit Types (c : Cache V).


(** X12. A deleted key and, after [Clear], every key read as not found,
    at every instant; deleting a key leaves the reads of the other keys
    as they were. *)
Theorem Delete_Clear_then_Get c key t :
  (Get t key (Delete key c)).1 = (None, false) ∧
  (Get t key (Clear c)).1 = (None, false) ∧
  (∀ key', key' ≠ key → (Get t key' (Delete key c)).1 = (Get t key' c).1).
Proof.
  split; [|split].
  - unfold Get, Delete. simpl. by rewrite lookup_delete_eq.
  - unfold Get, Clear. cbn [data]. by rewrite lookup_empty.
  - intros key' Hne. unfold Get, Delete. simpl. rewrite lookup_delete_ne by done.
    destruct (data c !! key') as [item|]; [|done].
    by destruct (expiration item <? t).
Qed.

(** X13. The removal that [Get] leaves to a goroutine deletes whatever is
    stored under the key when it runs: if the key is set again between the
    [Get] that found it expired and the run of that goroutine, the fresh
    value is lost, and a read that would have been a hit reports the key
    as not found. *)
Theorem stale_removal_drops_fresh_value c key item t1 t2 (v : V) ttl t3 :
  data c !! key = Some item → expiration item < t1 → t3 ≤ t2 + ttl →
  let c1 := (Get t1 key c).2 in
  let c2 := Set_ t2 key v ttl c1 in
  let c3 := reap (length (reapers c)) c2 in
  (Get t3 key c2).1 = (Some v, true) ∧ (Get t3 key c3).1 = (None, false).
Proof.
  intros Hitem Hexp Ht3 c1 c2 c3.
  assert (Hc1 : c1 = {| data := data c; reapers := reapers c ++ [key] |}).
  { unfold c1, Get. by rewrite Hitem, (proj2 (Z.ltb_lt _ _) Hexp). }
  split.
  - unfold c2, Get, Set_. simpl. rewrite lookup_insert_eq. simpl.
    by rewrite (proj2 (Z.ltb_ge _ _) Ht3).
  - unfold c3, c2, reap, Set_. rewrite Hc1. simpl.
    rewrite lookup_app_r, Nat.sub_diag by done. simpl.
    unfold Get. simpl. by rewrite lookup_delete_eq.
Qed.

End CacheMore.


Lemma stale_removal_drops_fresh_value_witness :
  let c := utils.Set_ 0 "k" false 10 utils.NewCache in
  (utils.Get 30 "k"
     (utils.reap 0 (utils.Set_ 20 "k" true 100 (utils.Get 15 "k" c).2))).1
    = (None, false).
Proof.
  intros c.
  destruct (stale_removal_drops_fresh_value c "k"
              {| utils.value := false; utils.expiration := 10 |} 15 20 true 100 30)
    as [_ H].
  - reflexivity.
  - simpl. lia.
  - lia.
  - exact H.
Defined.

Section DomainCheckMore.
Import utils domain_check.



End DomainCheckMore.

(* ===================================================================== *)
(** ** Further properties of the report writers                          *)
(* ===================================================================== *)

Section ReportsMore.
Import services ExtraSpec.

Lemma fmtBool_inj b b' : fmtBool b = fmtBool b' → b = b'.
Proof. by destruct b, b'. Qed.

(** X15. The delimited-text report: the header, then one six-field record
    per entry, the matching entries first, then those missing in the first
    file, then those missing in the second, then the three lines that open
    the summary and its eight metrics; twelve records more than there are
    entries.  A record determines the address, the key, the validity and
    the reason of its entry. *)
Theorem generateEnhancedCSVOutput_layout matching missingInFirst missingInSecond summary :
  generateEnhancedCSVOutput matching missingInFirst missingInSecond summary
    = csvHeader
      :: ((λ t : string * string * EmailEntry, csvRow t.1.1 t.1.2 t.2)
            <$> taggedRows matching missingInFirst missingInSecond)
      ++ [[""]; ["Summary"]; ["Metric"; "Value"]]
      ++ ((λ row, [row.1; fmtInt row.2]) <$> summaryData summary) ∧
  length (generateEnhancedCSVOutput matching missingInFirst missingInSecond summary)
    = (length matching + length missingInFirst + length missingInSecond + 12)%nat ∧
  (∀ source status e source' status' e',
     csvRow source status e = csvRow source' status' e' →
     Email e = Email e' ∧ NormalizedEmail e = NormalizedEmail e' ∧
     IsValid e = IsValid e' ∧ Reason e = Reason e' ∧
     source = source' ∧ status = status').
Proof.
  assert (Heq : generateEnhancedCSVOutput matching missingInFirst missingInSecond summary
    = csvHeader
      :: ((λ t : string * string * EmailEntry, csvRow t.1.1 t.1.2 t.2)
            <$> taggedRows matching missingInFirst missingInSecond)
      ++ [[""]; ["Summary"]; ["Metric"; "Value"]]
      ++ ((λ row, [row.1; fmtInt row.2]) <$> summaryData summary)).
  { rewrite generateEnhancedCSVOutput_rows. unfold taggedRows.
    rewrite !fmap_app, <- !list_fmap_compose. simpl. by rewrite <- !app_assoc. }
  split; [done|]. split.
  - rewrite Heq. unfold taggedRows. simpl.
    rewrite !length_app, !length_fmap, !length_app, !length_fmap. simpl. lia.
  - intros source status e source' status' e'. unfold csvRow.
    intros [= ? ? ? ? ?%fmtBool_inj ?]. done.
Qed.

(** *** The spreadsheet, cell by cell *)












End ReportsMore.

(* ===================================================================== *)
(** ** The pipeline                                                       *)
(* ===================================================================== *)

Section PipelineMore.
Import GoStrings GoPath GoIO utils services pipeline ExtraSpec.












End PipelineMore.

(* ===================================================================== *)
(** ** The logger                                                         *)
(* ===================================================================== *)

Section LoggerFacts.
Import GoStrings utils_logger.

Lemma Println_closed out line σ :
  closed (Println out line σ) = closed σ.
Proof. destruct out; simpl; [done|]. by destruct (closed σ) eqn:E. Qed.

Lemma Println_on_closed_file line σ :
  closed σ = true → Println FileAndStdout line σ = σ.
Proof. intros H. simpl. by rewrite H. Qed.

(** A call of [log] on a logger whose mutex is free, case by case. *)
Lemma log_free clock caller lvl msg l σ :
  mu l = false →
  log clock caller lvl msg l σ =
    if lvl <? level l then {| st := Returned; lg := l; after := σ |}
    else if lvl =? FATAL then
      {| st := Exited 1; lg := withMu l true;
         after := if file l
                  then closeFile (Println (logger l) (logMsg clock caller l lvl msg) σ)
                  else Println (logger l) (logMsg clock caller l lvl msg) σ |}
    else {| st := Returned; lg := l;
            after := Println (logger l) (logMsg clock caller l lvl msg) σ |}.
Proof. intros H. unfold log. by rewrite H. Qed.

Lemma log_held clock caller lvl msg l σ :
  mu l = true → log clock caller lvl msg l σ = {| st := Blocked; lg := l; after := σ |}.
Proof. intros H. unfold log. by rewrite H. Qed.

(** X20. A call of [log] on a logger whose mutex is free never waits.  It
    ends the program, with code 1, exactly when the message is [FATAL] and
    the threshold is not above [FATAL]; otherwise it returns and leaves the
    logger as it was, the mutex free again.  A message below the threshold
    writes nothing; a message that passes it adds one line, the same one,
    to the standard output and to the log file of a logger with an open
    file, and to the standard output alone for a console logger. *)
Theorem log_outcome clock caller lvl msg l σ :
  mu l = false →
  let r := log clock caller lvl msg l σ in
  let line := logMsg clock caller l lvl msg in
  st r ≠ Blocked ∧
  (st r = Exited 1 ↔ lvl = FATAL ∧ level l ≤ FATAL) ∧
  (st r = Returned ↔ ¬ (lvl = FATAL ∧ level l ≤ FATAL)) ∧
  (st r = Returned → lg r = l) ∧
  (lvl < level l → after r = σ) ∧
  (passes l lvl → logger l = Stdout →
     stdout (after r) = stdout σ ++ [line] ∧ logFile (after r) = logFile σ) ∧
  (passes l lvl → logger l = FileAndStdout → closed σ = false →
     stdout (after r) = stdout σ ++ [line] ∧ logFile (after r) = logFile σ ++ [line]).
Proof.
  intros Hmu r line. subst r line. rewrite (log_free _ _ _ _ _ _ Hmu).
  unfold passes, FATAL.
  destruct (Z.ltb_spec lvl (level l)) as [Hlt|Hge]; simpl.
  { repeat split; try done; try lia; intros; lia. }
  destruct (Z.eqb_spec lvl 4) as [->|Hne]; simpl.
  - split; [done|]. split; [by split|]. split; [split; [done|intros []; by split]|].
    split; [done|]. split; [lia|].
    split.
    + intros _ Hout. rewrite Hout. by destruct (file l).
    + intros _ Hout Hcl. rewrite Hout. simpl. rewrite Hcl. by destruct (file l).
  - split; [done|]. split; [split; [done|by intros [? _]]|].
    split; [split; [by intros _ [? _]|done]|]. split; [done|]. split; [lia|].
    split.
    + intros _ Hout. by rewrite Hout.
    + intros _ Hout Hcl. rewrite Hout. simpl. by rewrite Hcl.
Qed.

Lemma log_outcome_witness :
  mu consoleLogger = false ∧
  st (log (λ _, "12:00") (Some ("/src/main.go", 38)) WARN "started"
        consoleLogger emptyWorld) = Returned ∧
  stdout (after (log (λ _, "12:00") (Some ("/src/main.go", 38)) WARN "started"
                   consoleLogger emptyWorld))
    = ["[12:00] [WARN] [main.go:38] started"].
Proof.
  destruct (log_outcome (λ _, "12:00") (Some ("/src/main.go", 38)) WARN "started"
              consoleLogger emptyWorld eq_refl) as (_ & _ & Hret & _ & _ & Hout & _).
  split; [reflexivity|]. split.
  - apply Hret. intros [H _]. discriminate H.
  - destruct Hout as [Hout _]; [by vm_compute|reflexivity|].
    rewrite Hout. reflexivity.
Defined.

(** X21. [SetLevel] never returns.  On a logger whose mutex is free it
    takes the mutex, sets the level and then waits for the same mutex in
    [log], having written nothing; the mutex stays held, so every later
    call of [log], [SetLevel] and [Close] on the logger waits as well. *)
Theorem SetLevel_never_returns clock caller lvl l σ :
  let r := SetLevel clock caller lvl l σ in
  st r = Blocked ∧ after r = σ ∧
  (mu l = false →
     level (lg r) = lvl ∧ mu (lg r) = true ∧
     (∀ clock' caller' lvl' msg σ',
        st (log clock' caller' lvl' msg (lg r) σ') = Blocked) ∧
     (∀ clock' caller' lvl' σ', st (SetLevel clock' caller' lvl' (lg r) σ') = Blocked) ∧
     (∀ σ', st (Close (lg r) σ') = Blocked)).
Proof.
  intros r. subst r. unfold SetLevel.
  destruct (mu l) eqn:Hmu; [by simpl|].
  unfold Info. rewrite log_held by done. simpl.
  split; [done|]. split; [done|]. intros _.
  split; [done|]. split; [done|].
  split; [|split].
  - done.
  - done.
  - done.
Qed.

Lemma initDefaultLogger_returns clock caller mkdirAll openFile lvl format g σ :
  pst (initDefaultLogger clock caller mkdirAll openFile lvl format g σ) = Returned.
Proof.
  unfold initDefaultLogger.
  destruct mkdirAll; [|done]. destruct openFile; [|done]. simpl.
  unfold Info. rewrite log_free by done. cbn -[Println logMsg].
  by destruct (INFO <? lvl).
Qed.

(** X22. [InitLogger] acts once.  The first call returns, whether the
    directory and the file could be made or not; every later call returns
    nil and changes neither the package variables nor the output, whatever
    its arguments.  So after a first call that failed, no later call sets
    [defaultLogger], although each reports success. *)
Theorem InitLogger_acts_once clock caller mkdirAll openFile lvl format g σ :
  let first := InitLogger clock caller mkdirAll openFile lvl format g σ in
  pst first = Returned ∧
  onceDone (pglobals first) = true ∧
  (onceDone g = false → perr first ≠ None →
     defaultLogger (pglobals first) = defaultLogger g ∧ pafter first = σ) ∧
  (∀ clock' caller' mkdirAll' openFile' lvl' format',
     let later := InitLogger clock' caller' mkdirAll' openFile' lvl' format'
                    (pglobals first) (pafter first) in
     pst later = Returned ∧ perr later = None ∧
     pglobals later = pglobals first ∧ pafter later = pafter first).
Proof.
  intros first.
  assert (Hdone : pst first = Returned ∧ onceDone (pglobals first) = true).
  { subst first. unfold InitLogger. destruct (onceDone g) eqn:Hg; [done|].
    by rewrite initDefaultLogger_returns. }
  destruct Hdone as [Hst Hdone].
  split; [done|]. split; [done|]. split.
  - intros Hg Herr. subst first. revert Herr. unfold InitLogger. rewrite Hg.
    rewrite initDefaultLogger_returns. simpl.
    unfold initDefaultLogger.
    destruct mkdirAll; [|done]. destruct openFile; [|done]. by simpl.
  - intros. subst later. clearbody first. unfold InitLogger. by rewrite Hdone.
Qed.

(** What a first call of [InitLogger] installs when the directory and
    the file can be made. *)
Lemma InitLogger_installs clock caller lvl format σ :
  let r := InitLogger clock caller true true lvl format initialGlobals σ in
  defaultLogger (pglobals r)
    = Some {| level := lvl; logger := FileAndStdout; file := true; mu := false;
              timeFormat := format |} ∧
  closed (pafter r) = false.
Proof.
  intros r. subst r. unfold InitLogger, initialGlobals. cbn [onceDone].
  rewrite initDefaultLogger_returns.
  unfold initDefaultLogger. cbn [negb]. unfold Info. rewrite log_free by done.
  cbn -[Println logMsg].
  destruct (INFO <? lvl); cbn -[Println logMsg]; [done|].
  by rewrite Println_closed.
Qed.

(** X23. A logger that [InitLogger] has set up and that has been closed
    loses every message: a later call of [log] adds no line to the log
    file and none to the standard output either, whatever the level; a
    second [Close] changes nothing. *)
Theorem closed_logger_is_silent clock caller lvl format σ l :
  defaultLogger (pglobals (InitLogger clock caller true true lvl format
                             initialGlobals σ)) = Some l →
  let σ1 := pafter (InitLogger clock caller true true lvl format initialGlobals σ) in
  let c := Close l σ1 in
  st c = Returned ∧
  (∀ clock' caller' lvl' msg,
     let r := log clock' caller' lvl' msg (lg c) (after c) in
     stdout (after r) = stdout (after c) ∧ logFile (after r) = logFile (after c)) ∧
  Close (lg c) (after c) = {| st := Returned; lg := lg c; after := after c |}.
Proof.
  destruct (InitLogger_installs clock caller lvl format σ) as [Hl _].
  rewrite Hl. intros [= <-] σ1 c. clearbody σ1. subst c.
  unfold Close at 1 2 3 4 5 6. cbn [mu file st lg after withFile].
  split; [done|]. split; [|done].
  intros clock' caller' lvl' msg.
  rewrite log_free by done. cbn [level logger file withFile].
  destruct (lvl' <? lvl); [done|].
  rewrite Println_on_closed_file by done.
  by destruct (lvl' =? FATAL).
Qed.

Lemma closed_logger_is_silent_witness :
  ∃ l,
    defaultLogger (pglobals (InitLogger (λ _, "12:00") None true true DEBUG "15:04"
                               initialGlobals emptyWorld)) = Some l ∧
    stdout (after (log (λ _, "12:01") None ERROR "lost" (lg (Close l
              (pafter (InitLogger (λ _, "12:00") None true true DEBUG "15:04"
                         initialGlobals emptyWorld))))
              (after (Close l
              (pafter (InitLogger (λ _, "12:00") None true true DEBUG "15:04"
                         initialGlobals emptyWorld))))))
      = ["[12:00] [INFO] [unknown:0] Logger initialized with level: DEBUG"].
Proof.
  eexists. split; [reflexivity|].
  destruct (closed_logger_is_silent (λ _, "12:00") None DEBUG "15:04" emptyWorld _ eq_refl)
    as (_ & H & _).
  destruct (H (λ _, "12:01") None ERROR "lost") as [Hout _].
  rewrite Hout. reflexivity.
Defined.

Lemma GetLogger_present clock caller g σ l :
  defaultLogger g = Some l →
  GetLogger clock caller g σ
    = {| pst := Returned; perr := None; pglobals := g; pafter := σ |}.
Proof. intros H. unfold GetLogger. by rewrite H. Qed.

Lemma GetLogger_absent clock caller g σ :
  defaultLogger g = None →
  let l := {| level := INFO; logger := Stdout; file := false; mu := false;
              timeFormat := "2006-01-02 15:04:05.000" |} in
  GetLogger clock caller g σ
    = {| pst := Returned; perr := None;
         pglobals := {| defaultLogger := Some l; onceDone := onceDone g |};
         pafter := Println Stdout
                     (logMsg clock caller l WARN
                        "Using default console logger. Call InitLogger() for proper initialization.")
                     σ |}.
Proof.
  intros H l. unfold GetLogger. rewrite H. unfold Warn.
  rewrite log_free by done. reflexivity.
Qed.

(** X24. [GetLogger] without a default logger makes a console logger of
    level [INFO], which writes one [WARN] line to the standard output and
    nothing to the log file; it returns, and a second call returns the
    same logger and writes nothing.  With a default logger in place it
    changes nothing. *)
Theorem GetLogger_fallback clock caller g σ :
  let r := GetLogger clock caller g σ in
  pst r = Returned ∧ perr r = None ∧ onceDone (pglobals r) = onceDone g ∧
  (∀ l, defaultLogger g = Some l → pglobals r = g ∧ pafter r = σ) ∧
  (defaultLogger g = None →
     (∃ l, defaultLogger (pglobals r) = Some l ∧ level l = INFO ∧
           logger l = Stdout ∧ file l = false ∧ mu l = false) ∧
     (∃ line, stdout (pafter r) = stdout σ ++ [line]) ∧
     logFile (pafter r) = logFile σ) ∧
  (∀ clock' caller',
     let r' := GetLogger clock' caller' (pglobals r) (pafter r) in
     pglobals r' = pglobals r ∧ pafter r' = pafter r).
Proof.
  intros r. subst r.
  destruct (defaultLogger g) as [l0|] eqn:Hg.
  - rewrite (GetLogger_present _ _ _ _ _ Hg). cbn [pst perr pglobals pafter].
    split; [done|]. split; [done|]. split; [done|].
    split; [done|]. split; [done|].
    intros clock' caller'. cbv zeta. by rewrite (GetLogger_present _ _ _ _ _ Hg).
  - rewrite (GetLogger_absent _ _ _ _ Hg). cbn [pst perr pglobals pafter onceDone].
    split; [done|]. split; [done|]. split; [done|]. split; [done|].
    split.
    + intros _. split; [by eexists|]. split; [by eexists|done].
    + intros clock' caller'. cbv zeta. by erewrite GetLogger_present.
Qed.

End LoggerFacts.

(* ===================================================================== *)
(** ** The regular expression of [IsValidEmail]                           *)
(* ===================================================================== *)

Section RegexFacts.
Import GoStrings GoRegexp.











Import utils_regexp AddressSpec.

























End RegexFacts.

(* ===================================================================== *)
(** ** The upload handler                                                 *)
(* ===================================================================== *)

Section HandlerFacts.
Import GoStrings GoPath GoIO services pipeline ComparatorSpec handlers.



Lemma validExt_true e : validExt e = true ↔ e ∈ [".csv"; ".xlsx"; ".xls"].
Proof.
  rewrite !elem_of_cons, elem_of_nil.
  destruct (decide (e = ".csv")) as [->|H1]; [split; [by left|done]|].
  destruct (decide (e = ".xlsx")) as [->|H2]; [split; [by right; left|done]|].
  destruct (decide (e = ".xls")) as [->|H3]; [split; [by right; right; left|done]|].
  unfold validExt, validExts.
  rewrite !lookup_insert_ne by done. rewrite lookup_singleton_ne by done.
  simpl. split; [done|]. intros [?|[?|[?|[]]]]; done.
Qed.





(** The extraction looks at one file of the disk only. *)
Lemma extractEmails_ext fs fs' path :
  fs path = fs' path → extractEmails fs path = extractEmails fs' path.
Proof.
  intros H. unfold extractEmails, extractEmailsFromCSV, extractEmailsFromExcel.
  by rewrite H.
Qed.

(** The shape of a run of the pipeline that returns no error. *)
Lemma ValidateEmails_shape env p1 p2 fmt o :
  pipeline.ValidateEmails env p1 p2 fmt = Some o → err o = None →
  ∃ e1 e2 rep,
    extractEmails (files env) p1 = Some (e1, None) ∧
    extractEmails (files env) p2 = Some (e2, None) ∧
    let A := validateEmailList (poolRun env "First File" e1) e1 "First File" in
    let B := validateEmailList (poolRun env "Second File" e2) e2 "Second File" in
    let c := compareEmailEntries (mapOrder env) A B in
    let s := withProcessingTime (summary c) (elapsedSeconds env) in
    let name := "validation_result_" +:+ stamp env +:+ "." +:+
                (if bool_decide (fmt = "excel") then "xlsx" else fmt) in
    (rep = CSVReport (generateEnhancedCSVOutput (matching c) (missingInFirst c)
                        (missingInSecond c) s) ∨
     rep = ExcelReport (generateEnhancedExcelOutput (matching c) (missingInFirst c)
                          (missingInSecond c) s)) ∧
    written o = Some (Join ["./temp"; name], rep) ∧
    ∃ r, result o = Some r ∧ FileName r = name.
Proof.
  unfold pipeline.ValidateEmails.
  destruct (mkdirAll env); cbn [negb]; [|by intros [= <-]].
  destruct (extractEmails (files env) p1) as [[e1 [x1|]]|] eqn:H1;
    cbn [fst snd]; try done.
  { destruct (extractEmails (files env) p2); [by intros [= <-]|done]. }
  destruct (extractEmails (files env) p2) as [[e2 [x2|]]|] eqn:H2;
    cbn [fst snd]; try done; [by intros [= <-]|].
  unfold generateEnhancedOutputFile.
  repeat case_bool_decide; intros [= <-]; try done; intros _.
  all: eexists e1, e2, _; split; [done|]; split; [done|]; cbv zeta.
  all: rewrite ?bool_decide_eq_true_2 by done; rewrite ?bool_decide_eq_false_2 by done.
  all: (split; [|split; [reflexivity|eexists; split; reflexivity]]); auto.
Qed.

(** The pipeline looks at the two files that it is given only. *)
Lemma ValidateEmails_files env fs fs' p1 p2 fmt :
  fs p1 = fs' p1 → fs p2 = fs' p2 →
  pipeline.ValidateEmails (withFiles env fs) p1 p2 fmt
    = pipeline.ValidateEmails (withFiles env fs') p1 p2 fmt.
Proof.
  intros H1 H2. unfold pipeline.ValidateEmails. cbn [files withFiles mkdirAll stamp
    elapsedSeconds poolRun mapOrder].
  by rewrite (extractEmails_ext fs fs' p1 H1), (extractEmails_ext fs fs' p2 H2).
Qed.

Lemma refused_iff req :
  refused req ↔
  match formFirstFile req, formSecondFile req with
  | Some f1, Some f2 =>
      ¬ (default "csv" (formOutputFormat req) = "csv" ∨
         default "csv" (formOutputFormat req) = "excel") ∨
      validExt (Ext (Filename f1)) = false ∨ validExt (Ext (Filename f2)) = false
  | _, _ => True
  end.
Proof.
  unfold refused. destruct req as [[f1|] [f2|] fmt]; cbn [formFirstFile formSecondFile
    formOutputFormat]; try (split; [done|auto]).
  split.
  - intros [?|[?|[(x & -> & H1 & H2)|(f & Hf & Hext)]]]; try done.
    + left. simpl. by intros [?|?].
    + right. rewrite <- validExt_true in Hext.
      destruct Hf as [[= <-]|[= <-]]; [left|right]; by destruct (validExt _).
  - intros [H|[H|H]].
    + right; right; left. destruct fmt as [x|]; [|by destruct H; left].
      exists x. simpl in H. split; [done|]. split; intros ->; apply H; auto.
    + right; right; right. exists f1. split; [by left|].
      rewrite <- validExt_true. by rewrite H.
    + right; right; right. exists f2. split; [by right|].
      rewrite <- validExt_true. by rewrite H.
Qed.

(** The ways in which a request ends. *)
Lemma handler_cases env req :
  (refused req ∧
   ∃ e, handlers.ValidateEmails env req = Some (errorResponse 400 e) ∧ requestError e) ∨
  (¬ refused req ∧ ∃ f1 f2,
     formFirstFile req = Some f1 ∧ formSecondFile req = Some f2 ∧
     let fmt := default "csv" (formOutputFormat req) in
     let p1 := "./temp/" +:+ Filename f1 in
     let p2 := "./temp/" +:+ Filename f2 in
     (fmt = "csv" ∨ fmt = "excel") ∧
     Ext (Filename f1) ∈ [".csv"; ".xlsx"; ".xls"] ∧
     Ext (Filename f2) ∈ [".csv"; ".xlsx"; ".xls"] ∧
     ((saveFirst env = false ∧
       handlers.ValidateEmails env req = Some (errorResponse 500 ErrSaveFirst)) ∨
      (saveFirst env = true ∧ saveSecond env = false ∧
       handlers.ValidateEmails env req = Some (errorResponse 500 ErrSaveSecond)) ∨
      (saveFirst env = true ∧ saveSecond env = true ∧
       ∃ o, pipeline.ValidateEmails
              (withFiles (pipe env) (afterSaves (files (pipe env)) f1 f2)) p1 p2 fmt
              = Some o ∧
            ((∃ e, err o = Some e ∧
                   handlers.ValidateEmails env req
                     = Some (errorResponse 500 (ErrValidation e))) ∨
             (err o = None ∧ ∃ r rep,
                result o = Some r ∧
                written o = Some (Join ["./temp"; FileName r], rep) ∧
                handlers.ValidateEmails env req
                  = Some (fileResponse (FileName r) rep)))))).
Proof.
  pose proof (refused_iff req) as Href.
  unfold handlers.ValidateEmails.
  destruct (formFirstFile req) as [f1|] eqn:E1;
    [|left; split; [by apply Href|by eexists]].
  destruct (formSecondFile req) as [f2|] eqn:E2;
    [|left; split; [by apply Href|by eexists]].
  cbv zeta.
  case_bool_decide as Hfmt.
  { left. split; [|by eexists]. apply Href. left. intros [?|?]; by destruct Hfmt. }
  destruct (validExt (Ext (Filename f1))) eqn:V1; cbn [negb orb];
    [|left; split; [apply Href; auto|by eexists]].
  destruct (validExt (Ext (Filename f2))) eqn:V2; cbn [negb orb];
    [|left; split; [apply Href; auto|by eexists]].
  assert (Hok : default "csv" (formOutputFormat req) = "csv" ∨
                default "csv" (formOutputFormat req) = "excel").
  { destruct (decide (default "csv" (formOutputFormat req) = "csv")); [by left|].
    destruct (decide (default "csv" (formOutputFormat req) = "excel")); [by right|].
    by destruct Hfmt. }
  right. split.
  { rewrite Href. intros [H|[H|H]]; [by apply H| |]; congruence. }
  exists f1, f2. split; [done|]. split; [done|]. split; [done|].
  split; [by apply validExt_true|]. split; [by apply validExt_true|].
  unfold SaveUploadedFile.
  destruct (saveFirst env); [|by left].
  destruct (saveSecond env); [|by right; left].
  right; right. split; [done|]. split; [done|].
  change (λ p, if bool_decide (p = "./temp/" +:+ Filename f2) then Some (upload f2)
               else if bool_decide (p = "./temp/" +:+ Filename f1) then Some (upload f1)
               else files (pipe env) p)
    with (afterSaves (files (pipe env)) f1 f2).
  destruct (pipeline.ValidateEmails _ _ _ _) as [o|] eqn:Ho.
  2:{ exfalso. revert Ho. unfold pipeline.ValidateEmails.
      destruct (mkdirAll _); cbn [negb]; [|done].
      destruct (extractEmails_total_helper
                  (files (withFiles (pipe env) (afterSaves (files (pipe env)) f1 f2)))
                  ("./temp/" +:+ Filename f1)) as [x1 ->].
      destruct (extractEmails_total_helper
                  (files (withFiles (pipe env) (afterSaves (files (pipe env)) f1 f2)))
                  ("./temp/" +:+ Filename f2)) as [x2 ->].
      repeat case_match; done. }
  exists o. split; [done|].
  destruct (err o) as [e|] eqn:He; [left; by exists e|].
  right. split; [done|].
  destruct (ValidateEmails_shape _ _ _ _ _ Ho He)
    as (e1 & e2 & rep & _ & _ & _ & Hw & r & Hr & Hn).
  exists r, rep. rewrite Hr. rewrite Hn. split; [done|]. split; [done|].
  rewrite Hw. unfold Stat. by rewrite bool_decide_eq_true_2.
Qed.











Lemma filter_known_keys (ks : list string) (l : list EmailEntry) :
  (∀ e, e ∈ l → NormalizedEmail e ∈ ks) →
  filter (λ e, NormalizedEmail e ∉ ks) l = [].
Proof.
  induction l as [|a l IH]; intros H; [done|].
  rewrite filter_cons.
  destruct (decide (NormalizedEmail a ∉ ks)) as [Hn|_].
  - exfalso. apply Hn, H. by left.
  - apply IH. intros e He. apply H. by right.
Qed.

(** Two lists with the same keys have nothing missing. *)
Lemma same_keys_nothing_missing range A B :
  range_ok range → keys A = keys B →
  missingInFirst (compareEmailEntries range A B) = [] ∧
  missingInSecond (compareEmailEntries range A B) = [].
Proof.
  intros Hr Hk. split.
  - destruct (compareEmailEntries_lists range A B) as (_ & -> & _).
    apply filter_known_keys. intros e He. rewrite Hk.
    unfold keys. apply list_elem_of_fmap. by exists e.
  - apply Permutation_nil_r. rewrite (missingInSecond_perm range A B Hr).
    rewrite filter_known_keys; [done|].
    intros e He. rewrite <- Hk. apply keepLast_keys.
    unfold keys. apply list_elem_of_fmap. by exists e.
Qed.

Lemma validateEmailList_keys sched emails source :
  sched.*2 ≡ₚ seq 0 (length emails) →
  keys (validateEmailList sched emails source)
    = (λ x, utils.NormalizedEmail (utils.ValidateEmailDetailed x)) <$> emails.
Proof.
  intros Hp. rewrite (validateEmailList_eq _ _ _ Hp). unfold keys.
  by rewrite <- list_fmap_compose.
Qed.

(** X30. Two uploads with the same file name are saved to the same file,
    the second over the first, before anything is read: the response is
    the one of the request in which the second upload is sent twice.  So
    the first upload is never compared, and a report that is sent lists
    no address as missing on either side. *)
Theorem handler_same_name env req f1 f2 :
  formFirstFile req = Some f1 → formSecondFile req = Some f2 →
  Filename f1 = Filename f2 →
  handlers.ValidateEmails env req = handlers.ValidateEmails env (secondTwice req) ∧
  (range_ok (mapOrder (pipe env)) →
   (∀ source emails,
      utils.schedule_of (utils.workerCount emails) emails
        (poolRun (pipe env) source emails)) →
   ∀ resp, handlers.ValidateEmails env req = Some resp → status resp = 200 →
     ∃ path m s,
       (body resp = File path (Written (CSVReport (generateEnhancedCSVOutput m [] [] s))) ∨
        body resp = File path (Written (ExcelReport (generateEnhancedExcelOutput m [] [] s)))) ∧
       MissingInFirstCount s = 0 ∧ MissingInSecondCount s = 0).
Proof.
  intros E1 E2 Hname. split.
  - unfold handlers.ValidateEmails, secondTwice.
    cbn [formFirstFile formSecondFile formOutputFormat]. rewrite E1, E2. cbv zeta.
    rewrite Hname. case_bool_decide; [done|].
    destruct (negb (validExt (Ext (Filename f2))) || negb (validExt (Ext (Filename f2))));
      [done|].
    unfold SaveUploadedFile.
    destruct (saveFirst env); [|done]. destruct (saveSecond env); [|done].
    match goal with
    | |- match pipeline.ValidateEmails (withFiles _ ?fsL) _ _ _ with _ => _ end
         = match pipeline.ValidateEmails (withFiles _ ?fsR) _ _ _ with _ => _ end =>
        rewrite (ValidateEmails_files (pipe env) fsL fsR)
          by (by rewrite !bool_decide_eq_true_2);
        destruct (pipeline.ValidateEmails (withFiles (pipe env) fsR) _ _ _)
          as [o|] eqn:Ho; [|done]
    end.
    destruct (err o) as [e|] eqn:He; [done|].
    destruct (ValidateEmails_shape _ _ _ _ _ Ho He)
      as (e1 & e2 & rep & _ & _ & _ & Hw & r & Hr & Hn).
    rewrite Hr, Hn, Hw. unfold Stat.
    set (path := Join _). by rewrite !(bool_decide_eq_true_2 (path = path)).
  - intros Hrange Hpool resp Hresp H200.
    destruct (handler_cases env req)
      as [[_ (e & Hh & _)]|(_ & g1 & g2 & G1 & G2 & Hrest)].
    { rewrite Hh in Hresp. by injection Hresp as <-. }
    rewrite E1 in G1. rewrite E2 in G2. injection G1 as <-. injection G2 as <-.
    cbv zeta in Hrest. destruct Hrest as (_ & _ & _ & Hrest).
    destruct Hrest as [[_ Hh]|[(_ & _ & Hh)|(_ & _ & o & Hrun & Ho)]];
      [rewrite Hh in Hresp; by injection Hresp as <-..|].
    destruct Ho as [(e & _ & Hh)|(He & r & rep & _ & Hw & Hh)];
      [rewrite Hh in Hresp; by injection Hresp as <-|].
    rewrite Hh in Hresp. injection Hresp as <-.
    destruct (ValidateEmails_shape _ _ _ _ _ Hrun He)
      as (e1 & e2 & rep' & X1 & X2 & Hshape).
    cbv zeta in Hshape. destruct Hshape as (Hrep & Hw' & _).
    rewrite Hw in Hw'. injection Hw' as _ <-.
    rewrite Hname in X1. rewrite X1 in X2. injection X2 as <-.
    cbn [poolRun mapOrder elapsedSeconds withFiles] in Hrep.
    set (A := validateEmailList (poolRun (pipe env) "First File" e1) e1 "First File") in *.
    set (B := validateEmailList (poolRun (pipe env) "Second File" e1) e1 "Second File") in *.
    assert (Hk : keys A = keys B).
    { unfold A, B. rewrite !validateEmailList_keys; [done|apply Hpool..]. }
    destruct (same_keys_nothing_missing _ A B Hrange Hk) as [Hf Hs].
    destruct (compareEmailEntries_summary_fields (mapOrder (pipe env)) A B)
      as (_ & Hc1 & Hc2 & _).
    rewrite Hf in Hc1. rewrite Hs in Hc2. rewrite Hf, Hs in Hrep.
    eexists _, _, _. split; [|split].
    + cbn [body fileResponse]. destruct Hrep as [->| ->]; [by left|by right].
    + done.
    + done.
Qed.

Lemma handler_same_name_witness :
  handlers.ValidateEmails HandlerSamples.sampleHandlerEnv HandlerSamples.sameNameRequest
    = handlers.ValidateEmails HandlerSamples.sampleHandlerEnv
        (secondTwice HandlerSamples.sameNameRequest).
Proof.
  exact (proj1 (handler_same_name HandlerSamples.sampleHandlerEnv
                  HandlerSamples.sameNameRequest HandlerSamples.uploadA
                  HandlerSamples.uploadA' eq_refl eq_refl eq_refl)).
Defined.

End HandlerFacts.
